(** * Chaincode event stream adapter (node/src/chaincodeevent.ts)

    A shallow embedding of [newChaincodeEvents] and [newChaincodeEvent].

    The adapter is an async generator closed over a mutable [closed] flag and
    over the upstream iterable [responses].  A generator object is modelled by
    its suspension point; the upstream iterable is an abstract state machine;
    the calls the adapter makes on it are recorded in a trace.  The consumer
    iterates the adapter once and drives it through two operations, [next]
    and [close], one at a time (requests queued on an async generator are
    served in order). *)

From Stdlib Require Import String Strings.Byte List NArith ZArith Bool Arith Lia.
Import ListNotations.

Local Open Scope Z_scope.

(** ** Wire messages and the public event record *)

(** [ChaincodeEventProto]: the getters of the generated message class.  A getter
    may give [undefined]/[null], which is [None] here. *)
Record ChaincodeEventProto : Type := {
  getChaincodeId : option string;
  getEventName : option string;
  getTxId : option string;
  getPayload_asU8 : option (list byte)
}.

(** [ChaincodeEventsResponse]: one block's batch.  The block number getter gives
    a JS number holding an unsigned integer. *)
Record ChaincodeEventsResponse : Type := {
  getBlockNumber : option N;
  getEventsList : option (list ChaincodeEventProto)
}.

(** [interface ChaincodeEvent]; [blockNumber] is a [bigint]. *)
Record ChaincodeEvent : Type := {
  blockNumber : Z;
  transactionId : string;
  chaincodeId : string;
  eventName : string;
  payload : list byte
}.

(** [x ?? d] *)
Definition nullish {A : Type} (x : option A) (d : A) : A :=
  match x with
  | Some v => v
  | None => d
  end.

(** [x || d] at an object type (array, [Uint8Array]): every object is truthy,
    the empty array included, so only [undefined]/[null] select [d]. *)
Definition or_else {A : Type} (x : option A) (d : A) : A :=
  match x with
  | Some v => v
  | None => d
  end.

(** [BigInt(n)] of an integral number. *)
Definition BigInt (n : N) : Z := Z.of_N n.

Definition newChaincodeEvent (blockNumber : Z) (event : ChaincodeEventProto)
  : ChaincodeEvent :=
  {| blockNumber := blockNumber;
     chaincodeId := nullish (getChaincodeId event) EmptyString;
     eventName := nullish (getEventName event) EmptyString;
     transactionId := nullish (getTxId event) EmptyString;
     payload := or_else (getPayload_asU8 event) [] |}.

(** ** The upstream iterable *)

(** A thrown value. *)
Definition Error : Type := string.

(** What awaiting the upstream iterator's [next()] settles to. *)
Inductive outcome : Type :=
| Item (response : ChaincodeEventsResponse)
| EndOfStream
| Raise (e : Error).

(** [CloseableAsyncIterable<ChaincodeEventsResponse>] with carrier [U]:
    [up_next] is the iterator's [next()], [up_close] the iterable's [close()],
    and [up_return] the iterator's [return()], which [for await] invokes when
    its body leaves the loop early. *)
Class CloseableAsyncIterable (U : Type) : Type := {
  up_next : U -> outcome * U;
  up_close : U -> U;
  up_return : U -> U
}.

(** Calls made on the upstream iterable, in the order made. *)
Inductive up_call : Type :=
| CallNext
| CallClose
| CallReturn.

Definition is_close (c : up_call) : bool :=
  match c with
  | CallClose => true
  | _ => false
  end.

Definition is_next (c : up_call) : bool :=
  match c with
  | CallNext => true
  | _ => false
  end.

Definition close_count (cs : list up_call) : nat := length (filter is_close cs).
Definition next_count (cs : list up_call) : nat := length (filter is_next cs).

Definition is_return (c : up_call) : bool :=
  match c with
  | CallReturn => true
  | _ => false
  end.

Definition return_count (cs : list up_call) : nat :=
  length (filter is_return cs).

(** What a [next()] request on the generator settles to. *)
Inductive result : Type :=
| Yield (e : ChaincodeEvent)
| Done
| Throw (e : Error).

(** ** What a batch contributes, read off the loop body *)

(** [BigInt(response.getBlockNumber() ?? 0)] *)
Definition batch_block (response : ChaincodeEventsResponse) : Z :=
  BigInt (nullish (getBlockNumber response) 0%N).

(** [response.getEventsList() || []] *)
Definition batch_records (response : ChaincodeEventsResponse)
  : list ChaincodeEventProto :=
  or_else (getEventsList response) [].

(** The events of one batch, in record order, tagged with its block number. *)
Definition batch_events (response : ChaincodeEventsResponse)
  : list ChaincodeEvent :=
  map (newChaincodeEvent (batch_block response)) (batch_records response).

(** The number of records in the first [k] batches of [bs]: the position in
    the output of the first record of the batch after them. *)
Definition records_before (k : nat) (bs : list ChaincodeEventsResponse) : nat :=
  list_sum (map (fun b => length (batch_records b)) (firstn k bs)).

(** The batch has a record for the inner loop to visit. *)
Definition has_records (response : ChaincodeEventsResponse) : bool :=
  match batch_records response with
  | [] => false
  | _ :: _ => true
  end.

(** No getter of the record gives [undefined]. *)
Definition is_complete (event : ChaincodeEventProto) : bool :=
  match getChaincodeId event, getEventName event, getTxId event,
        getPayload_asU8 event with
  | Some _, Some _, Some _, Some _ => true
  | _, _, _, _ => false
  end.

(** The result a request settles to when the upstream settles to [o] without
    a batch. *)
Definition settle (o : outcome) : result :=
  match o with
  | Raise e => Throw e
  | _ => Done
  end.

Definition is_item (o : outcome) : bool :=
  match o with
  | Item _ => true
  | _ => false
  end.

Fixpoint strictly_increasing (l : list Z) : bool :=
  match l with
  | x :: (y :: _) as t => (x <? y) && strictly_increasing t
  | _ => true
  end.

(** ** The adapter *)

(** Where the generator body is suspended: before its first statement, at the
    [yield] of the inner loop with the records still to visit, or finished. *)
Inductive gen_state : Type :=
| NotStarted
| Suspended (blockNumber : Z) (rest : list ChaincodeEventProto)
| Completed.

Section Adapter.

Context {U : Type} `{CloseableAsyncIterable U}.

(** The closure of [newChaincodeEvents]: the captured flag, the generator,
    the captured [responses], and the trace of calls made on it. *)
Record adapter : Type := {
  closed : bool;
  gen : gen_state;
  responses : U;
  calls : list up_call
}.

Definition newChaincodeEvents (responses : U) : adapter :=
  {| closed := false; gen := NotStarted; responses := responses; calls := [] |}.

(** [close: () => { closed = true; responses.close(); }] *)
Definition close (a : adapter) : adapter :=
  {| closed := true;
     gen := gen a;
     responses := up_close (responses a);
     calls := calls a ++ [CallClose] |}.

(** The head of the [for await] loop and its body up to the first [yield].
    [fuel] bounds the number of batches pulled by one request. *)
Fixpoint pull (fuel : nat) (a : adapter) : option (result * adapter) :=
  match fuel with
  | O => None
  | S fuel' =>
      let (o, u) := up_next (responses a) in
      let cs := calls a ++ [CallNext] in
      match o with
      | EndOfStream =>
          Some (Done, {| closed := closed a; gen := Completed;
                         responses := u; calls := cs |})
      | Raise e =>
          Some (Throw e, {| closed := closed a; gen := Completed;
                            responses := u; calls := cs |})
      | Item response =>
          if closed a then
            Some (Done, {| closed := closed a; gen := Completed;
                           responses := up_return u;
                           calls := cs ++ [CallReturn] |})
          else
            let blockNumber := BigInt (nullish (getBlockNumber response) 0%N) in
            let events := or_else (getEventsList response) [] in
            match events with
            | [] =>
                pull fuel' {| closed := closed a; gen := Suspended blockNumber [];
                              responses := u; calls := cs |}
            | event :: rest =>
                Some (Yield (newChaincodeEvent blockNumber event),
                      {| closed := closed a; gen := Suspended blockNumber rest;
                         responses := u; calls := cs |})
            end
      end
  end.

(** One [next()] request: resume the generator where it is suspended. *)
Definition next (fuel : nat) (a : adapter) : option (result * adapter) :=
  match gen a with
  | Completed => Some (Done, a)
  | Suspended blockNumber (event :: rest) =>
      Some (Yield (newChaincodeEvent blockNumber event),
            {| closed := closed a; gen := Suspended blockNumber rest;
               responses := responses a; calls := calls a |})
  | Suspended _ [] => pull fuel a
  | NotStarted => pull fuel a
  end.

(** ** Consumers *)

Inductive op : Type :=
| Next
| Close.

(** The [close()] requests among [ops]. *)
Definition closes (ops : list op) : nat :=
  length (filter (fun o => match o with Close => true | Next => false end) ops).

(** A consumer issuing [ops] in order; the results of its [next()] requests. *)
Fixpoint run (fuel : nat) (ops : list op) (a : adapter)
  : option (list result * adapter) :=
  match ops with
  | [] => Some ([], a)
  | Close :: ops' => run fuel ops' (close a)
  | Next :: ops' =>
      match next fuel a with
      | None => None
      | Some (r, a') =>
          match run fuel ops' a' with
          | None => None
          | Some (rs, a'') => Some (r :: rs, a'')
          end
      end
  end.

(** [for await (const e of adapter) out.push(e)]: request until a result
    other than an element; [n] bounds the number of requests. *)
Fixpoint consume (fuel n : nat) (a : adapter)
  : option (list ChaincodeEvent * result * adapter) :=
  match n with
  | O => None
  | S n' =>
      match next fuel a with
      | None => None
      | Some (Yield e, a') =>
          match consume fuel n' a' with
          | None => None
          | Some (es, r, a'') => Some (e :: es, r, a'')
          end
      | Some (r, a') => Some ([], r, a')
      end
  end.

(** The elements among the results. *)
Fixpoint yields (rs : list result) : list ChaincodeEvent :=
  match rs with
  | [] => []
  | Yield e :: rs' => e :: yields rs'
  | _ :: rs' => yields rs'
  end.

(** The records a suspended generator has still to emit from its batch. *)
Definition pending (g : gen_state) : list ChaincodeEvent :=
  match g with
  | Suspended blockNumber rest => map (newChaincodeEvent blockNumber) rest
  | _ => []
  end.

(** The generator is about to await the upstream: not started, or suspended
    at the last record of its batch. *)
Definition awaiting (g : gen_state) : bool :=
  match g with
  | NotStarted => true
  | Suspended _ [] => true
  | _ => false
  end.

(** ** Upstream behaviour under successive [next()] calls *)

(** What [n] successive [next()] calls on the upstream settle to. *)
Fixpoint answers (n : nat) (u : U) : list outcome :=
  match n with
  | O => []
  | S n' => fst (up_next u) :: answers n' (snd (up_next u))
  end.

(** The upstream after [n] successive [next()] calls. *)
Fixpoint after (n : nat) (u : U) : U :=
  match n with
  | O => u
  | S n' => after n' (snd (up_next u))
  end.

(** The upstream delivers the batches [bs] and then settles to [fin]. *)
Definition delivers (u : U) (bs : list ChaincodeEventsResponse) (fin : outcome)
  : Prop :=
  answers (S (length bs)) u = map Item bs ++ [fin].

(** The upstream delivers at least the batches [bs]. *)
Definition delivers_first (u : U) (bs : list ChaincodeEventsResponse) : Prop :=
  answers (length bs) u = map Item bs.

(** With [u0] the upstream the adapter was built on, [out] the events emitted
    so far and [a] the adapter now: the events emitted, followed by those still
    pending in the batch in flight, are the events of the batches pulled so
    far, which are the first batches of [u0]. *)
Definition emitted_from (u0 : U) (out : list ChaincodeEvent) (a : adapter)
  : Prop :=
  exists bs,
    delivers_first u0 bs
    /\ out ++ pending (gen a) = flat_map batch_events bs
    /\ (gen a = Completed \/ closed a = true
        \/ responses a = after (length bs) u0).

End Adapter.

Arguments adapter U : clear implicits.

(** ** A scripted upstream *)

(** [queue] holds what the coming [next()] calls settle to, end of stream once
    it is exhausted.  [close()] replaces the queue by [on_close] when there is
    one (a cancelled transport) and leaves it otherwise (batches already
    buffered).  The iterator's [return()] empties the queue. *)
Record scripted : Type := {
  queue : list outcome;
  on_close : option (list outcome)
}.

Definition scripted_next (s : scripted) : outcome * scripted :=
  match queue s with
  | [] => (EndOfStream, s)
  | o :: q => (o, {| queue := q; on_close := on_close s |})
  end.

Definition scripted_close (s : scripted) : scripted :=
  {| queue := match on_close s with
              | Some q => q
              | None => queue s
              end;
     on_close := on_close s |}.

Definition scripted_return (s : scripted) : scripted :=
  {| queue := []; on_close := on_close s |}.

#[export] Instance scripted_iterable : CloseableAsyncIterable scripted := {|
  up_next := scripted_next;
  up_close := scripted_close;
  up_return := scripted_return
|}.

(** The two batches of the specification's scenario. *)
Definition record1 : ChaincodeEventProto :=
  {| getChaincodeId := Some "cc1"%string; getEventName := Some "ev1"%string;
     getTxId := Some "t1"%string; getPayload_asU8 := Some [x01; x02] |}.

Definition record2 : ChaincodeEventProto :=
  {| getChaincodeId := Some "cc1"%string; getEventName := Some "ev2"%string;
     getTxId := Some "t2"%string; getPayload_asU8 := Some [] |}.

Definition record3 : ChaincodeEventProto :=
  {| getChaincodeId := Some "cc1"%string; getEventName := Some "ev3"%string;
     getTxId := Some "t3"%string; getPayload_asU8 := Some [x09] |}.

Definition batch5 : ChaincodeEventsResponse :=
  {| getBlockNumber := Some 5%N; getEventsList := Some [record1] |}.

Definition batch6 : ChaincodeEventsResponse :=
  {| getBlockNumber := Some 6%N; getEventsList := Some [record2; record3] |}.

Definition event1 : ChaincodeEvent := newChaincodeEvent 5 record1.
Definition event2 : ChaincodeEvent := newChaincodeEvent 6 record2.
Definition event3 : ChaincodeEvent := newChaincodeEvent 6 record3.

(** The scenario's expected events, field by field. *)
Definition expected1 : ChaincodeEvent :=
  {| blockNumber := 5; transactionId := "t1"%string;
     chaincodeId := "cc1"%string; eventName := "ev1"%string;
     payload := [x01; x02] |}.

Definition expected2 : ChaincodeEvent :=
  {| blockNumber := 6; transactionId := "t2"%string;
     chaincodeId := "cc1"%string; eventName := "ev2"%string;
     payload := [] |}.

Definition expected3 : ChaincodeEvent :=
  {| blockNumber := 6; transactionId := "t3"%string;
     chaincodeId := "cc1"%string; eventName := "ev3"%string;
     payload := [x09] |}.

(** Both batches buffered; [close()] does not discard them. *)
Definition buffered_two : scripted :=
  {| queue := [Item batch5; Item batch6]; on_close := None |}.

(** Both batches pending; after [close()] the transport reports cancellation. *)
Definition cancelling_two : scripted :=
  {| queue := [Item batch5; Item batch6];
     on_close := Some [Raise "cancelled"%string] |}.

(** One batch, then a transport failure. *)
Definition failing_after_one : scripted :=
  {| queue := [Item batch5; Raise "unavailable"%string; Item batch6];
     on_close := None |}.

(** The adapter over [buffered_two] after two requests: suspended inside the
    second batch, the first of its two records emitted. *)
Definition mid_batch6 : adapter scripted :=
  {| closed := false; gen := Suspended 6 [record3];
     responses := {| queue := []; on_close := None |};
     calls := [CallNext; CallNext] |}.

(** The same point over [cancelling_two]. *)
Definition mid_batch6_cancelling : adapter scripted :=
  {| closed := false; gen := Suspended 6 [record3];
     responses := {| queue := []; on_close := Some [Raise "cancelled"%string] |};
     calls := [CallNext; CallNext] |}.

(** A third batch, and the adapter suspended inside the second batch while
    the third is buffered upstream. *)
Definition record4 : ChaincodeEventProto :=
  {| getChaincodeId := Some "cc1"%string; getEventName := Some "ev4"%string;
     getTxId := Some "t4"%string; getPayload_asU8 := Some [] |}.

Definition batch7 : ChaincodeEventsResponse :=
  {| getBlockNumber := Some 7%N; getEventsList := Some [record4] |}.

Definition buffered_three : scripted :=
  {| queue := [Item batch5; Item batch6; Item batch7]; on_close := None |}.

Definition mid_batch6_more : adapter scripted :=
  {| closed := false; gen := Suspended 6 [record3];
     responses := {| queue := [Item batch7]; on_close := None |};
     calls := [CallNext; CallNext] |}.

(** A record with every field absent, in a batch without a block number. *)
Definition bare_record : ChaincodeEventProto :=
  {| getChaincodeId := None; getEventName := None; getTxId := None;
     getPayload_asU8 := None |}.

Definition bare_batch : ChaincodeEventsResponse :=
  {| getBlockNumber := None; getEventsList := Some [bare_record] |}.

Definition bare_upstream : scripted :=
  {| queue := [Item bare_batch]; on_close := None |}.

(** The two batches of the scenario among batches without records: one with an
    empty record list, one whose record list is absent. *)
Definition empty_list_batch : ChaincodeEventsResponse :=
  {| getBlockNumber := Some 4%N; getEventsList := Some [] |}.

Definition absent_list_batch : ChaincodeEventsResponse :=
  {| getBlockNumber := None; getEventsList := None |}.

Definition sparse_two : scripted :=
  {| queue := [Item empty_list_batch; Item batch5; Item absent_list_batch;
               Item batch6];
     on_close := None |}.

(** ** Scenario checks *)

Example scenario_drained :
  consume 3 4 (newChaincodeEvents buffered_two)
  = Some ([event1; event2; event3], Done,
          {| closed := false; gen := Completed;
             responses := {| queue := []; on_close := None |};
             calls := [CallNext; CallNext; CallNext] |}).
Proof. reflexivity. Qed.

Example scenario_close_mid_batch :
  option_map fst
    (run 1 [Next; Next; Close; Next; Next; Next] (newChaincodeEvents buffered_two))
  = Some [Yield event1; Yield event2; Yield event3; Done; Done].
Proof. reflexivity. Qed.

Example mid_batch6_cancelling_reached :
  run 1 [Next; Next] (newChaincodeEvents cancelling_two)
  = Some ([Yield event1; Yield event2], mid_batch6_cancelling).
Proof. reflexivity. Qed.

Example mid_batch6_more_reached :
  run 1 [Next; Next] (newChaincodeEvents buffered_three)
  = Some ([Yield event1; Yield event2], mid_batch6_more).
Proof. reflexivity. Qed.

Example scenario_close_first_cancelled :
  option_map fst (run 1 [Close; Next; Next] (newChaincodeEvents cancelling_two))
  = Some [Throw "cancelled"%string; Done].
Proof. reflexivity. Qed.

(** ** General facts about the adapter *)

Section AdapterFacts.

Context {U : Type} `{CloseableAsyncIterable U}.

Implicit Types (a : adapter U) (u : U) (bs : list ChaincodeEventsResponse).

Lemma pull_mono : forall f a x,
  pull f a = Some x -> forall f', (f <= f')%nat -> pull f' a = Some x.
Proof.
  induction f as [|f IH]; intros a x Hp f' Hle; cbn [pull] in Hp; [discriminate|].
  destruct f' as [|f']; [lia|]. cbn [pull].
  destruct (up_next (responses a)) as [o u]. destruct o; auto.
  destruct (closed a); auto.
  destruct (or_else (getEventsList response) []); auto.
  apply IH with (f' := f') in Hp; [assumption|lia].
Qed.

Lemma next_mono : forall f a x,
  next f a = Some x -> forall f', (f <= f')%nat -> next f' a = Some x.
Proof.
  unfold next. intros f a x Hn f' Hle.
  destruct (gen a) as [|bn [|ev rest]|]; eauto using pull_mono.
Qed.

Lemma answers_snoc : forall n u,
  answers (S n) u = answers n u ++ [fst (up_next (after n u))].
Proof.
  induction n as [|n IH]; intro u; [reflexivity|].
  change (answers (S (S n)) u)
    with (fst (up_next u) :: answers (S n) (snd (up_next u))).
  rewrite IH. reflexivity.
Qed.

Lemma after_S : forall n u, after (S n) u = snd (up_next (after n u)).
Proof.
  induction n as [|n IH]; intro u; [reflexivity|].
  change (after (S (S n)) u) with (after (S n) (snd (up_next u))).
  rewrite IH. reflexivity.
Qed.

Lemma delivers_first_snoc : forall u0 bs b u1,
  delivers_first u0 bs ->
  up_next (after (length bs) u0) = (Item b, u1) ->
  delivers_first u0 (bs ++ [b]) /\ u1 = after (length (bs ++ [b])) u0.
Proof.
  unfold delivers_first. intros u0 bs b u1 Hd Hn.
  rewrite length_app, Nat.add_1_r, answers_snoc, after_S, Hd, Hn, map_app.
  split; reflexivity.
Qed.

Lemma yields_cons : forall r rs, yields (r :: rs) = yields [r] ++ yields rs.
Proof. intros [e| |e] rs; reflexivity. Qed.

Lemma awaiting_pending : forall g, awaiting g = true -> pending g = [].
Proof. intros [|bn [|ev rest]|] Hg; try reflexivity; discriminate. Qed.

Lemma batch_events_nil : forall b, batch_records b = [] -> batch_events b = [].
Proof. unfold batch_events. intros b ->. reflexivity. Qed.

Lemma flat_map_snoc : forall bs b,
  flat_map batch_events (bs ++ [b]) = flat_map batch_events bs ++ batch_events b.
Proof. intros. rewrite flat_map_app. cbn. rewrite app_nil_r. reflexivity. Qed.

Lemma pull_emitted : forall u0 f a out r a',
  awaiting (gen a) = true ->
  emitted_from u0 out a ->
  pull f a = Some (r, a') ->
  emitted_from u0 (out ++ yields [r]) a'.
Proof.
  intros u0. induction f as [|f IH]; intros a out r a' Haw Hinv Hp;
    cbn [pull] in Hp; [discriminate|].
  destruct Hinv as (bs & Hd & Hout & Hst).
  rewrite (awaiting_pending _ Haw), app_nil_r in Hout.
  destruct (up_next (responses a)) as [o u] eqn:Hn.
  destruct o as [b| |e].
  - destruct (closed a) eqn:Hc.
    + inversion Hp; subst. exists bs. cbn. rewrite !app_nil_r. auto.
    + assert (Hr : responses a = after (length bs) u0).
      { destruct Hst as [Hg|[Hg|Hg]]; [|discriminate|assumption].
        rewrite Hg in Haw. discriminate. }
      rewrite Hr in Hn.
      destruct (delivers_first_snoc _ _ _ _ Hd Hn) as [Hd' Hu].
      fold (batch_records b) in Hp. fold (batch_block b) in Hp.
      destruct (batch_records b) as [|ev rest] eqn:Hev.
      * refine (IH _ out r a' _ _ Hp); [reflexivity|].
        exists (bs ++ [b]). cbn. split; [assumption|].
        rewrite flat_map_snoc, (batch_events_nil _ Hev), !app_nil_r. auto.
      * inversion Hp; subst r a'. exists (bs ++ [b]). cbn.
        split; [assumption|]. split; [|auto].
        rewrite flat_map_snoc. unfold batch_events. rewrite Hev, Hout.
        rewrite <- app_assoc. reflexivity.
  - inversion Hp; subst. exists bs. cbn. rewrite !app_nil_r. auto.
  - inversion Hp; subst. exists bs. cbn. rewrite !app_nil_r. auto.
Qed.

Lemma next_emitted : forall u0 f a out r a',
  emitted_from u0 out a ->
  next f a = Some (r, a') ->
  emitted_from u0 (out ++ yields [r]) a'.
Proof.
  intros u0 f a out r a' Hinv Hn. unfold next in Hn.
  destruct (gen a) as [|bn [|ev rest]|] eqn:Hg.
  - eapply pull_emitted; eauto. rewrite Hg. reflexivity.
  - eapply pull_emitted; eauto. rewrite Hg. reflexivity.
  - inversion Hn; subst r a'. destruct Hinv as (bs & Hd & Hout & Hst).
    exists bs. cbn. split; [assumption|]. split.
    + rewrite <- Hout, Hg, <- app_assoc. reflexivity.
    + destruct Hst as [Hs|[Hs|Hs]]; auto. rewrite Hg in Hs. discriminate.
  - inversion Hn; subst r a'. cbn. rewrite app_nil_r. assumption.
Qed.

Lemma close_emitted : forall u0 a out,
  emitted_from u0 out a -> emitted_from u0 out (close a).
Proof.
  intros u0 a out (bs & Hd & Hout & Hst). exists bs. cbn. auto.
Qed.

Lemma run_emitted : forall u0 f ops a out rs a',
  emitted_from u0 out a ->
  run f ops a = Some (rs, a') ->
  emitted_from u0 (out ++ yields rs) a'.
Proof.
  intros u0 f. induction ops as [|[|] ops IH]; intros a out rs a' Hinv Hr;
    cbn [run] in Hr.
  - inversion Hr; subst. cbn. rewrite app_nil_r. assumption.
  - destruct (next f a) as [[r a1]|] eqn:Hn; [|discriminate].
    destruct (run f ops a1) as [[rs1 a2]|] eqn:Hr1; [|discriminate].
    inversion Hr; subst rs a'. rewrite yields_cons, app_assoc.
    eapply IH; [|eassumption]. eapply next_emitted; eassumption.
  - eapply IH; [|eassumption]. apply close_emitted. assumption.
Qed.

Lemma emitted_from_new : forall u0, emitted_from u0 [] (newChaincodeEvents u0).
Proof. intro u0. exists []. cbn. unfold delivers_first. cbn. auto. Qed.

(** *** Draining an upstream that delivers finitely many batches *)

Lemma delivers_nil : forall u fin, delivers u [] fin -> fst (up_next u) = fin.
Proof. unfold delivers. cbn. intros u fin Hd. inversion Hd. reflexivity. Qed.

Lemma delivers_cons : forall u b bs fin,
  delivers u (b :: bs) fin ->
  fst (up_next u) = Item b /\ delivers (snd (up_next u)) bs fin.
Proof.
  unfold delivers. intros u b bs fin Hd.
  change (answers (S (length (b :: bs))) u)
    with (fst (up_next u) :: answers (S (length bs)) (snd (up_next u))) in Hd.
  cbn [map app] in Hd. inversion Hd. split; reflexivity.
Qed.

Lemma next_awaiting : forall f a, awaiting (gen a) = true -> next f a = pull f a.
Proof.
  unfold next. intros f a Haw.
  destruct (gen a) as [|bn [|ev rest]|]; try reflexivity; discriminate.
Qed.

Lemma pull_delivers_total : forall bs u fin a f,
  delivers u bs fin -> is_item fin = false ->
  closed a = false -> responses a = u -> (length bs < f)%nat ->
  exists x, pull f a = Some x.
Proof.
  induction bs as [|b bs IH]; intros u fin a f Hd Hfin Hc Hu Hf;
    (destruct f as [|f]; [cbn in Hf; lia|]); cbn [pull]; rewrite Hu.
  - apply delivers_nil in Hd.
    destruct (up_next u) as [o u1]. cbn in Hd. subst o.
    destruct fin; [discriminate|eauto|eauto].
  - apply delivers_cons in Hd. destruct Hd as [Hb Hd].
    destruct (up_next u) as [o u1]. cbn in Hb, Hd. subst o. rewrite Hc.
    destruct (or_else (getEventsList b) []); [|eauto].
    eapply IH; eauto. cbn in Hf. lia.
Qed.

Lemma consume_suspended : forall rest bn c u cs f n es r a',
  consume f n {| closed := c; gen := Suspended bn []; responses := u;
                 calls := cs |} = Some (es, r, a') ->
  consume f (length rest + n)
    {| closed := c; gen := Suspended bn rest; responses := u; calls := cs |}
  = Some (map (newChaincodeEvent bn) rest ++ es, r, a').
Proof.
  induction rest as [|ev rest IH]; intros bn c u cs f n es r a' Hc;
    [exact Hc|].
  cbn [length Nat.add consume next gen closed responses calls].
  rewrite (IH _ _ _ _ _ _ _ _ _ Hc). reflexivity.
Qed.

Lemma consume_delivers : forall bs u fin a f n,
  delivers u bs fin -> is_item fin = false ->
  closed a = false -> responses a = u -> awaiting (gen a) = true ->
  (length bs < f)%nat -> (length (flat_map batch_events bs) < n)%nat ->
  consume f n a
  = Some (flat_map batch_events bs, settle fin,
          {| closed := false; gen := Completed;
             responses := after (S (length bs)) u;
             calls := calls a ++ repeat CallNext (S (length bs)) |}).
Proof.
  induction bs as [|b bs IH]; intros u fin a f n Hd Hfin Hc Hu Haw Hf Hn;
    (destruct f as [|f]; [cbn in Hf; lia|]);
    (destruct n as [|n]; [lia|]);
    cbn [consume]; rewrite (next_awaiting _ _ Haw); cbn [pull]; rewrite Hu.
  - apply delivers_nil in Hd. cbn [length after repeat flat_map].
    destruct (up_next u) as [o u1]. cbn in Hd. subst o. rewrite Hc.
    destruct fin; [discriminate|reflexivity|reflexivity].
  - apply delivers_cons in Hd. destruct Hd as [Hb Hd].
    change (after (S (length (b :: bs))) u)
      with (after (S (length bs)) (snd (up_next u))).
    destruct (up_next u) as [o u1]. cbn [fst snd] in Hb, Hd |- *. subst o.
    rewrite Hc. fold (batch_records b). fold (batch_block b).
    cbn [flat_map] in Hn |- *. unfold batch_events at 1 in Hn.
    unfold batch_events at 1.
    change (calls a ++ repeat CallNext (S (length (b :: bs))))
      with (calls a ++ [CallNext] ++ repeat CallNext (S (length bs))).
    rewrite (app_assoc (calls a) [CallNext]).
    cbn in Hf.
    destruct (batch_records b) as [|ev rest].
    + cbn [map app] in Hn |- *.
      set (a1 := {| closed := false; gen := Suspended (batch_block b) [];
                    responses := u1; calls := calls a ++ [CallNext] |}).
      assert (Hx : exists x, pull f a1 = Some x).
      { eapply pull_delivers_total; eauto. lia. }
      destruct Hx as [x Hx].
      specialize (IH u1 fin a1 (S f) (S n) Hd Hfin eq_refl eq_refl eq_refl).
      cbn [consume] in IH. rewrite (next_awaiting (S f) a1 eq_refl) in IH.
      rewrite (pull_mono _ _ _ Hx (S f)) in IH by lia.
      rewrite Hx. apply IH; lia.
    + cbn [map app length] in Hn |- *. rewrite length_app, length_map in Hn.
      set (a1 := {| closed := false; gen := Suspended (batch_block b) [];
                    responses := u1; calls := calls a ++ [CallNext] |}).
      specialize (IH u1 fin a1 (S f) (n - length rest)%nat
                     Hd Hfin eq_refl eq_refl eq_refl).
      apply (consume_suspended rest) in IH; [|lia|lia].
      replace (length rest + (n - length rest))%nat with n in IH by lia.
      rewrite IH. reflexivity.
Qed.

(** *** Sequences of requests *)

Lemma run_app : forall f ops1 ops2 a rs1 a1 rs2 a2,
  run f ops1 a = Some (rs1, a1) ->
  run f ops2 a1 = Some (rs2, a2) ->
  run f (ops1 ++ ops2) a = Some (rs1 ++ rs2, a2).
Proof.
  intros f. induction ops1 as [|[|] ops1 IH]; intros ops2 a rs1 a1 rs2 a2 H1 H2;
    cbn [run app] in H1 |- *.
  - inversion H1; subst. exact H2.
  - destruct (next f a) as [[r a0]|]; [|discriminate].
    destruct (run f ops1 a0) as [[rs a0']|] eqn:Hr; [|discriminate].
    inversion H1; subst. rewrite (IH _ _ _ _ _ _ Hr H2). reflexivity.
  - eapply IH; eassumption.
Qed.

Lemma run_completed : forall f k a,
  gen a = Completed -> run f (repeat Next k) a = Some (repeat Done k, a).
Proof.
  intros f. induction k as [|k IH]; intros a Hg; [reflexivity|].
  cbn [repeat run]. unfold next. rewrite Hg, (IH a Hg). reflexivity.
Qed.

Lemma run_in_flight : forall f taken rest bn c u cs,
  run f (repeat Next (length taken))
    {| closed := c; gen := Suspended bn (taken ++ rest); responses := u;
       calls := cs |}
  = Some (map Yield (map (newChaincodeEvent bn) taken),
          {| closed := c; gen := Suspended bn rest; responses := u;
             calls := cs |}).
Proof.
  intros f. induction taken as [|ev taken IH]; intros rest bn c u cs;
    [reflexivity|].
  cbn [length repeat run app next gen closed responses calls].
  rewrite IH. reflexivity.
Qed.

Lemma close_count_snoc : forall cs c,
  close_count (cs ++ [c]) = (close_count cs + if is_close c then 1 else 0)%nat.
Proof.
  unfold close_count. intros cs c. rewrite filter_app, length_app. cbn.
  destruct (is_close c); reflexivity.
Qed.

Lemma pull_closed : forall f a,
  closed a = true ->
  exists a',
    pull (S f) a = Some (settle (fst (up_next (responses a))), a')
    /\ gen a' = Completed /\ closed a' = true
    /\ close_count (calls a') = close_count (calls a).
Proof.
  intros f a Hc. cbn [pull]. destruct (up_next (responses a)) as [o u].
  rewrite Hc. destruct o; eexists; (split; [reflexivity|]);
    cbn [gen closed calls]; repeat rewrite close_count_snoc; cbn [is_close];
    repeat split; auto; lia.
Qed.

Lemma pull_flags : forall f a r a',
  pull f a = Some (r, a') ->
  closed a' = closed a /\ close_count (calls a') = close_count (calls a).
Proof.
  induction f as [|f IH]; intros a r a' Hp; cbn [pull] in Hp; [discriminate|].
  destruct (up_next (responses a)) as [o u]. destruct o.
  - destruct (closed a) eqn:Hc.
    + inversion Hp; subst. cbn [closed calls].
      rewrite !close_count_snoc. cbn [is_close]. split; [auto|lia].
    + destruct (or_else (getEventsList response) []).
      * apply IH in Hp. cbn [closed calls] in Hp.
        rewrite close_count_snoc in Hp. cbn [is_close] in Hp.
        destruct Hp as [-> ->]. split; [auto|lia].
      * inversion Hp; subst. cbn [closed calls].
        rewrite close_count_snoc. cbn [is_close]. split; [auto|lia].
  - inversion Hp; subst. cbn [closed calls].
    rewrite close_count_snoc. cbn [is_close]. split; [auto|lia].
  - inversion Hp; subst. cbn [closed calls].
    rewrite close_count_snoc. cbn [is_close]. split; [auto|lia].
Qed.

Lemma next_flags : forall f a r a',
  next f a = Some (r, a') ->
  closed a' = closed a /\ close_count (calls a') = close_count (calls a).
Proof.
  unfold next. intros f a r a' Hn.
  destruct (gen a) as [|bn [|ev rest]|]; eauto using pull_flags;
    inversion Hn; subst; cbn; auto.
Qed.

Lemma run_close_count : forall f ops a rs a',
  run f ops a = Some (rs, a') ->
  close_count (calls a') = (close_count (calls a) + closes ops)%nat.
Proof.
  intros f. induction ops as [|[|] ops IH]; intros a rs a' Hr; cbn [run] in Hr.
  - inversion Hr; subst. unfold closes. cbn. lia.
  - destruct (next f a) as [[r a1]|] eqn:Hn; [|discriminate].
    destruct (run f ops a1) as [[rs1 a2]|] eqn:Hr1; [|discriminate].
    inversion Hr; subst. apply IH in Hr1. apply next_flags in Hn.
    destruct Hn as [_ Hn]. unfold closes in *. cbn. lia.
  - apply IH in Hr. cbn [close calls] in Hr. rewrite close_count_snoc in Hr.
    unfold closes in *. cbn in *. lia.
Qed.


(** Requests on a closed adapter that is about to await the upstream. *)
Lemma run_closed_awaiting : forall f k a,
  closed a = true -> awaiting (gen a) = true ->
  exists a',
    run (S f) (repeat Next (S k)) a
    = Some (settle (fst (up_next (responses a))) :: repeat Done k, a')
    /\ close_count (calls a') = close_count (calls a).
Proof.
  intros f k a Hc Haw.
  destruct (pull_closed f a Hc) as (a' & Hp & Hg & _ & Hcc).
  exists a'. split; [|assumption].
  cbn [repeat run]. rewrite (next_awaiting _ _ Haw), Hp.
  rewrite (run_completed _ k a' Hg). reflexivity.
Qed.

Lemma yields_app : forall rs1 rs2, yields (rs1 ++ rs2) = yields rs1 ++ yields rs2.
Proof.
  induction rs1 as [|r rs1 IH]; intro rs2; [reflexivity|].
  cbn [app]. rewrite (yields_cons r), (yields_cons r rs1), IH, app_assoc.
  reflexivity.
Qed.

Lemma yields_map_Yield : forall es, yields (map Yield es) = es.
Proof. induction es as [|e es IH]; [reflexivity|]. cbn. rewrite IH. reflexivity. Qed.

Lemma yields_settled : forall o m, yields (settle o :: repeat Done m) = [].
Proof.
  intros o m. rewrite yields_cons.
  replace (yields [settle o]) with (@nil ChaincodeEvent) by (destruct o; reflexivity).
  induction m as [|m IH]; [reflexivity|exact IH].
Qed.

(** Requests on an adapter closed while suspended inside a batch. *)
Lemma run_closed_in_flight : forall f m bn rest u cs,
  exists a',
    run (S f) (repeat Next (length rest + S m))
      {| closed := true; gen := Suspended bn rest; responses := u; calls := cs |}
    = Some (map Yield (map (newChaincodeEvent bn) rest)
              ++ settle (fst (up_next u)) :: repeat Done m, a')
    /\ close_count (calls a') = close_count cs.
Proof.
  intros f m bn rest u cs.
  destruct (run_closed_awaiting f m
              {| closed := true; gen := Suspended bn []; responses := u;
                 calls := cs |} eq_refl eq_refl) as (a' & Hr & Hcc).
  exists a'. split; [|exact Hcc].
  rewrite repeat_app. eapply run_app; [|exact Hr].
  rewrite <- (app_nil_r rest) at 2. apply run_in_flight.
Qed.

End AdapterFacts.

(** ** Order of the events of a sequence of batches *)

Lemma strictly_increasing_head : forall x l,
  strictly_increasing (x :: l) = true ->
  strictly_increasing l = true /\ Forall (fun y => x < y) l.
Proof.
  intros x l. revert x. induction l as [|y l IH]; intros x Hs.
  - split; [reflexivity|constructor].
  - cbn [strictly_increasing] in Hs. apply andb_true_iff in Hs.
    destruct Hs as [Hxy Hs]. apply Z.ltb_lt in Hxy. split; [exact Hs|].
    constructor; [assumption|].
    destruct (IH y Hs) as [_ Hall].
    eapply Forall_impl; [|exact Hall]. cbn. intros z Hz. lia.
Qed.

Lemma strictly_increasing_nth : forall l k1 k2 x y,
  strictly_increasing l = true -> (k1 < k2)%nat ->
  nth_error l k1 = Some x -> nth_error l k2 = Some y -> x < y.
Proof.
  induction l as [|z l IH]; intros k1 k2 x y Hs Hk H1 H2.
  - destruct k1; discriminate.
  - destruct (strictly_increasing_head _ _ Hs) as [Hs' Hall].
    destruct k2 as [|k2]; [lia|]. cbn in H2. destruct k1 as [|k1].
    + cbn in H1. inversion H1; subst z.
      rewrite Forall_forall in Hall. apply Hall.
      eapply nth_error_In. eassumption.
    + cbn in H1. apply (IH k1 k2 x y Hs'); [lia|assumption|assumption].
Qed.

Lemma flat_map_source : forall bs m e,
  nth_error (flat_map batch_events bs) m = Some e ->
  exists k b, nth_error bs k = Some b /\ In e (batch_events b).
Proof.
  intros bs m e Hm. apply nth_error_In in Hm. apply in_flat_map in Hm.
  destruct Hm as (b & Hb & He). apply In_nth_error in Hb.
  destruct Hb as [k Hk]. eauto.
Qed.

Lemma flat_map_order : forall bs i j e1 e2,
  (i < j)%nat ->
  nth_error (flat_map batch_events bs) i = Some e1 ->
  nth_error (flat_map batch_events bs) j = Some e2 ->
  (exists k1 k2 b1 b2,
      (k1 < k2)%nat /\ nth_error bs k1 = Some b1 /\ nth_error bs k2 = Some b2
      /\ In e1 (batch_events b1) /\ In e2 (batch_events b2))
  \/ (exists b p q,
         In b bs /\ (p < q)%nat
         /\ nth_error (batch_events b) p = Some e1
         /\ nth_error (batch_events b) q = Some e2).
Proof.
  induction bs as [|b bs IH]; intros i j e1 e2 Hij H1 H2.
  - destruct i; discriminate.
  - cbn [flat_map] in H1, H2.
    destruct (Nat.lt_ge_cases j (length (batch_events b))) as [Hj|Hj].
    + rewrite nth_error_app1 in H1 by lia. rewrite nth_error_app1 in H2 by lia.
      right. exists b, i, j. cbn. auto.
    + rewrite nth_error_app2 in H2 by lia.
      destruct (Nat.lt_ge_cases i (length (batch_events b))) as [Hi|Hi].
      * rewrite nth_error_app1 in H1 by lia. left.
        destruct (flat_map_source _ _ _ H2) as (k & b2 & Hk & He2).
        exists 0%nat, (S k), b, b2.
        split; [lia|]. split; [reflexivity|]. split; [exact Hk|].
        split; [eapply nth_error_In; eassumption|assumption].
      * rewrite nth_error_app2 in H1 by lia.
        assert (Hij' : (i - length (batch_events b)
                        < j - length (batch_events b))%nat) by lia.
        destruct (IH _ _ _ _ Hij' H1 H2)
          as [(k1 & k2 & b1 & b2 & Hk & Hb1 & Hb2 & He1 & He2)
             |(b0 & p & q & Hb0 & Hpq & Hp & Hq)].
        -- left. exists (S k1), (S k2), b1, b2.
           split; [lia|]. cbn [nth_error]. auto.
        -- right. exists b0, p, q. cbn. auto.
Qed.

Lemma batch_events_block : forall b e,
  In e (batch_events b) -> blockNumber e = batch_block b.
Proof.
  unfold batch_events. intros b e He. apply in_map_iff in He.
  destruct He as (r & <- & _). reflexivity.
Qed.

Lemma batch_events_record : forall b p e,
  nth_error (batch_events b) p = Some e ->
  exists r, nth_error (batch_records b) p = Some r
            /\ e = newChaincodeEvent (batch_block b) r.
Proof.
  unfold batch_events. intros b p e Hp. rewrite nth_error_map in Hp.
  destruct (nth_error (batch_records b) p) as [r|]; [|discriminate].
  inversion Hp. eauto.
Qed.

Lemma flat_map_batch_events_length : forall bs,
  length (flat_map batch_events bs)
  = list_sum (map (fun b => length (batch_records b)) bs).
Proof.
  induction bs as [|b bs IH]; [reflexivity|].
  cbn [flat_map map list_sum]. rewrite length_app, IH.
  unfold batch_events. rewrite length_map. reflexivity.
Qed.

(** *** Position and tag of an event in the output *)

Lemma batch_block_spelled : forall b,
  batch_block b
  = match getBlockNumber b with
    | Some m => Z.of_N m
    | None => 0
    end.
Proof. intros [[m|] l]; reflexivity. Qed.


Lemma batch_events_tags : forall b,
  map blockNumber (batch_events b)
  = repeat (batch_block b) (length (batch_records b)).
Proof.
  intro b. unfold batch_events.
  induction (batch_records b) as [|r rs IH]; [reflexivity|].
  cbn [map length repeat]. rewrite IH. reflexivity.
Qed.

Lemma flat_map_tags : forall bs,
  map blockNumber (flat_map batch_events bs)
  = flat_map (fun b => repeat (batch_block b) (length (batch_records b))) bs.
Proof.
  induction bs as [|b bs IH]; [reflexivity|].
  cbn [flat_map]. rewrite map_app, IH, batch_events_tags. reflexivity.
Qed.

Lemma batch_events_length : forall b,
  length (batch_events b) = length (batch_records b).
Proof. intro b. unfold batch_events. apply length_map. Qed.

Lemma flat_map_locate : forall bs i e,
  nth_error (flat_map batch_events bs) i = Some e ->
  exists k b p,
    nth_error bs k = Some b
    /\ nth_error (batch_events b) p = Some e
    /\ i = (records_before k bs + p)%nat.
Proof.
  induction bs as [|b bs IH]; intros i e Hi.
  - destruct i; discriminate.
  - cbn [flat_map] in Hi.
    destruct (Nat.lt_ge_cases i (length (batch_events b))) as [Hlt|Hge].
    + rewrite nth_error_app1 in Hi by exact Hlt.
      exists 0%nat, b, i. repeat split; auto.
    + rewrite nth_error_app2 in Hi by exact Hge.
      destruct (IH _ _ Hi) as (k & b' & p & Hk & Hp & Hpos).
      exists (S k), b', p. split; [exact Hk|]. split; [exact Hp|].
      unfold records_before, list_sum in *. cbn [firstn map fold_right].
      rewrite batch_events_length in *. lia.
Qed.

Lemma records_before_step : forall bs k b,
  nth_error bs k = Some b ->
  records_before (S k) bs = (records_before k bs + length (batch_records b))%nat.
Proof.
  unfold records_before, list_sum.
  induction bs as [|b0 bs IH]; intros k b Hk; [destruct k; discriminate|].
  destruct k as [|k].
  - cbn in Hk. inversion Hk; subst. destruct bs; cbn; lia.
  - cbn [nth_error] in Hk. specialize (IH k b Hk).
    change (firstn (S (S k)) (b0 :: bs)) with (b0 :: firstn (S k) bs).
    change (firstn (S k) (b0 :: bs)) with (b0 :: firstn k bs).
    cbn [map fold_right] in *. lia.
Qed.

Lemma records_before_mono : forall bs k k',
  (k <= k')%nat -> (records_before k bs <= records_before k' bs)%nat.
Proof.
  unfold records_before, list_sum.
  induction bs as [|b bs IH]; intros k k' Hle.
  - rewrite !firstn_nil. lia.
  - destruct k as [|k]; [cbn; lia|]. destruct k' as [|k']; [lia|].
    cbn [firstn map fold_right]. specialize (IH k k'). lia.
Qed.

Lemma flat_map_order_exact : forall bs i j e1 e2,
  (i < j)%nat ->
  nth_error (flat_map batch_events bs) i = Some e1 ->
  nth_error (flat_map batch_events bs) j = Some e2 ->
  exists k1 k2 b1 b2 p q,
    nth_error bs k1 = Some b1 /\ nth_error bs k2 = Some b2
    /\ nth_error (batch_events b1) p = Some e1
    /\ nth_error (batch_events b2) q = Some e2
    /\ i = (records_before k1 bs + p)%nat
    /\ j = (records_before k2 bs + q)%nat
    /\ ((k1 < k2)%nat \/ (k1 = k2 /\ (p < q)%nat)).
Proof.
  intros bs i j e1 e2 Hij H1 H2.
  destruct (flat_map_locate _ _ _ H1) as (k1 & b1 & p & Hk1 & Hp & Hi).
  destruct (flat_map_locate _ _ _ H2) as (k2 & b2 & q & Hk2 & Hq & Hj).
  exists k1, k2, b1, b2, p, q. repeat (split; [assumption|]).
  destruct (Nat.lt_trichotomy k1 k2) as [Hlt|[Heq|Hgt]].
  - left. exact Hlt.
  - right. split; [exact Heq|]. subst k2. lia.
  - exfalso.
    assert (Hq' : (q < length (batch_records b2))%nat).
    { rewrite <- batch_events_length. apply nth_error_Some. congruence. }
    pose proof (records_before_step _ _ _ Hk2) as Hstep.
    pose proof (records_before_mono bs (S k2) k1 Hgt) as Hmono.
    lia.
Qed.

(** ** Properties of the adapter *)

Section AdapterProperties.

Context {U : Type} `{CloseableAsyncIterable U}.

Implicit Types (a : adapter U) (u : U) (bs : list ChaincodeEventsResponse).

(** C1: when the upstream delivers the batches [bs] and then ends, and the
    consumer only requests elements, the adapter emits exactly one event per
    record, batch after batch and in record order inside a batch, and then
    ends.  Each event carries the block number of its batch ([0] when the
    batch has none) and the fields of its record (empty when absent); the
    block numbers of the output are those of the batches, each repeated once
    per record; and the number of events is the sum of the batches' record
    counts.  Any fuel above the number of batches and any request bound above
    the number of records is enough. *)
Theorem output_is_concatenation : forall u bs f n,
  delivers u bs EndOfStream ->
  (length bs < f)%nat ->
  let block b :=
    match getBlockNumber b with
    | Some m => Z.of_N m
    | None => 0
    end in
  let records b :=
    match getEventsList b with
    | Some l => l
    | None => []
    end in
  let decoded bn event :=
    {| blockNumber := bn;
       transactionId :=
         match getTxId event with
         | Some s => s
         | None => EmptyString
         end;
       chaincodeId :=
         match getChaincodeId event with
         | Some s => s
         | None => EmptyString
         end;
       eventName :=
         match getEventName event with
         | Some s => s
         | None => EmptyString
         end;
       payload :=
         match getPayload_asU8 event with
         | Some bytes => bytes
         | None => []
         end |} in
  let output := flat_map (fun b => map (decoded (block b)) (records b)) bs in
  (list_sum (map (fun b => length (records b)) bs) < n)%nat ->
  exists a',
    consume f n (newChaincodeEvents u) = Some (output, Done, a')
    /\ map blockNumber output
       = flat_map (fun b => repeat (block b) (length (records b))) bs
    /\ length output = list_sum (map (fun b => length (records b)) bs).
Proof.
  intros u bs f n Hd Hf block records decoded output Hn.
  assert (Hout : output = flat_map batch_events bs).
  { subst output. apply flat_map_ext. intro b. unfold batch_events.
    rewrite batch_block_spelled. reflexivity. }
  assert (Htags : flat_map (fun b => repeat (block b) (length (records b))) bs
                  = flat_map
                      (fun b => repeat (batch_block b)
                                  (length (batch_records b))) bs).
  { apply flat_map_ext. intro b. rewrite batch_block_spelled. reflexivity. }
  change (list_sum (map (fun b => length (batch_records b)) bs) < n)%nat in Hn.
  rewrite <- flat_map_batch_events_length in Hn.
  rewrite Hout, Htags. eexists. split; [|split].
  - apply (consume_delivers bs u EndOfStream (newChaincodeEvents u) f n);
      auto.
  - exact (flat_map_tags bs).
  - exact (flat_map_batch_events_length bs).
Qed.

(** C2: when the batches of the upstream come with strictly increasing block
    numbers, take any two events emitted by the adapter, the first before the
    second, under any sequence of [next()] and [close()] requests.  Each is
    the decoding of one record of one delivered batch, found at the event's
    position in the output, and carries that batch's block number.  Either
    the first event's batch came earlier and its block number is smaller, or
    both come from the same batch, carry the same block number, and the
    first event's record stands before the second's in that batch. *)
Theorem emission_order : forall u f ops rs a' i j e1 e2,
  let block b :=
    match getBlockNumber b with
    | Some m => Z.of_N m
    | None => 0
    end in
  let records b :=
    match getEventsList b with
    | Some l => l
    | None => []
    end in
  let decoded bn event :=
    {| blockNumber := bn;
       transactionId :=
         match getTxId event with
         | Some s => s
         | None => EmptyString
         end;
       chaincodeId :=
         match getChaincodeId event with
         | Some s => s
         | None => EmptyString
         end;
       eventName :=
         match getEventName event with
         | Some s => s
         | None => EmptyString
         end;
       payload :=
         match getPayload_asU8 event with
         | Some bytes => bytes
         | None => []
         end |} in
  (forall bs, delivers_first u bs ->
              strictly_increasing (map block bs) = true) ->
  run f ops (newChaincodeEvents u) = Some (rs, a') ->
  (i < j)%nat ->
  nth_error (yields rs) i = Some e1 ->
  nth_error (yields rs) j = Some e2 ->
  exists bs k1 k2 b1 b2 p q r1 r2,
    delivers_first u bs
    /\ nth_error bs k1 = Some b1 /\ nth_error bs k2 = Some b2
    /\ nth_error (records b1) p = Some r1
    /\ nth_error (records b2) q = Some r2
    /\ i = (list_sum (map (fun b => length (records b)) (firstn k1 bs)) + p)%nat
    /\ j = (list_sum (map (fun b => length (records b)) (firstn k2 bs)) + q)%nat
    /\ e1 = decoded (block b1) r1 /\ e2 = decoded (block b2) r2
    /\ blockNumber e1 = block b1 /\ blockNumber e2 = block b2
    /\ (((k1 < k2)%nat /\ blockNumber e1 < blockNumber e2)
        \/ (k1 = k2 /\ blockNumber e1 = blockNumber e2 /\ (p < q)%nat)).
Proof.
  intros u f ops rs a' i j e1 e2 block records decoded Hinc Hrun Hij H1 H2.
  destruct (run_emitted u f ops _ [] rs a' (emitted_from_new u) Hrun)
    as (bs & Hd & Hout & _).
  cbn [app] in Hout.
  assert (Hi : (i < length (yields rs))%nat)
    by (apply nth_error_Some; congruence).
  assert (Hj : (j < length (yields rs))%nat)
    by (apply nth_error_Some; congruence).
  rewrite <- (nth_error_app1 _ (pending (gen a')) Hi), Hout in H1.
  rewrite <- (nth_error_app1 _ (pending (gen a')) Hj), Hout in H2.
  destruct (flat_map_order_exact bs i j e1 e2 Hij H1 H2)
    as (k1 & k2 & b1 & b2 & p & q & Hk1 & Hk2 & Hp & Hq & Hpi & Hpj & Hord).
  destruct (batch_events_record _ _ _ Hp) as (r1 & Hr1 & He1).
  destruct (batch_events_record _ _ _ Hq) as (r2 & Hr2 & He2).
  rewrite batch_block_spelled in He1, He2.
  assert (Hsorted : strictly_increasing (map batch_block bs) = true).
  { rewrite (map_ext batch_block block); [exact (Hinc bs Hd)|].
    intro b. apply batch_block_spelled. }
  exists bs, k1, k2, b1, b2, p, q, r1, r2.
  split; [exact Hd|]. split; [exact Hk1|]. split; [exact Hk2|].
  split; [exact Hr1|]. split; [exact Hr2|].
  split; [exact Hpi|]. split; [exact Hpj|].
  split; [exact He1|]. split; [exact He2|].
  split; [rewrite He1; reflexivity|]. split; [rewrite He2; reflexivity|].
  rewrite He1, He2. cbn [blockNumber newChaincodeEvent].
  fold (block b1). fold (block b2).
  destruct Hord as [Hlt|[Heq Hpq]].
  - left. split; [exact Hlt|].
    apply (strictly_increasing_nth (map block bs) k1 k2);
      [exact (Hinc bs Hd)|exact Hlt
      |rewrite nth_error_map, Hk1; reflexivity
      |rewrite nth_error_map, Hk2; reflexivity].
  - right. subst k2. rewrite Hk1 in Hk2. inversion Hk2; subst b2.
    repeat split; auto.
Qed.

(** C6: when the upstream delivers its batches and ends, and the consumer only
    requests elements, the output ends after the last event and the adapter
    has made no call on the upstream other than its [next()] requests: no
    [close()] and no [return()].  Under any sequence of requests, the adapter
    has called the upstream's [close()] once per [close()] request it
    received. *)
Theorem natural_end_leaves_upstream_open : forall u bs f n,
  delivers u bs EndOfStream ->
  (length bs < f)%nat ->
  (length (flat_map batch_events bs) < n)%nat ->
  (exists a',
      consume f n (newChaincodeEvents u)
      = Some (flat_map batch_events bs, Done, a')
      /\ gen a' = Completed
      /\ calls a' = repeat CallNext (S (length bs))
      /\ close_count (calls a') = 0%nat)
  /\ (forall g ops rs a'',
         run g ops (newChaincodeEvents u) = Some (rs, a'') ->
         close_count (calls a'') = closes ops).
Proof.
  intros u bs f n Hd Hf Hn. split.
  - eexists. split.
    + apply (consume_delivers bs u EndOfStream (newChaincodeEvents u) f n);
        auto.
    + cbn [gen calls newChaincodeEvents app]. repeat split.
      unfold close_count. generalize (S (length bs)) as m.
      induction m as [|m IH]; [reflexivity|exact IH].
  - intros g ops rs a'' Hr. apply run_close_count in Hr. exact Hr.
Qed.

(** C8: an error raised by the upstream while the adapter awaits a batch
    reaches the consumer as that same error, from the request that was
    awaiting: the events of the batches delivered before it are emitted
    first, the adapter has then made one upstream [next()] call per batch plus
    the one that failed, and a later request ends the stream without calling
    the upstream again.  This holds for an open adapter after any number of
    batches, and for a closed one on its first pull. *)
Theorem upstream_error_passes_through : forall a bs e f n,
  awaiting (gen a) = true ->
  closed a = false \/ bs = [] ->
  delivers (responses a) bs (Raise e) ->
  (length bs < f)%nat ->
  (length (flat_map batch_events bs) < n)%nat ->
  exists a',
    consume f n a = Some (flat_map batch_events bs, Throw e, a')
    /\ gen a' = Completed
    /\ calls a' = calls a ++ repeat CallNext (S (length bs))
    /\ forall g, next g a' = Some (Done, a').
Proof.
  intros a bs e f n Haw Hc Hd Hf Hn.
  destruct (closed a) eqn:Hca.
  - destruct Hc as [Hc|Hc]; [discriminate|]. subst bs.
    apply delivers_nil in Hd.
    destruct f as [|f]; [cbn in Hf; lia|]. destruct n as [|n]; [lia|].
    cbn [consume]. rewrite (next_awaiting _ _ Haw). cbn [pull].
    destruct (up_next (responses a)) as [o u1]. cbn in Hd. subst o.
    eexists. split; [reflexivity|]. cbn. auto.
  - eexists. split.
    + apply (consume_delivers bs (responses a) (Raise e) a f n); auto.
    + cbn. auto.
Qed.

(** C10: the [closed] flag is read only when a batch has just been pulled.
    After [close()] inside a batch, the following requests emit every record
    still pending in that batch, in order; the request after them pulls the
    upstream, and when a batch arrives it ends the stream there, emitting
    none of that batch's records. *)
Theorem guard_only_between_batches : forall a bn rest f,
  gen a = Suspended bn rest ->
  run f (repeat Next (length rest)) (close a)
  = Some (map Yield (map (newChaincodeEvent bn) rest),
          {| closed := true; gen := Suspended bn [];
             responses := up_close (responses a);
             calls := calls a ++ [CallClose] |})
  /\ forall b u1,
       up_next (up_close (responses a)) = (Item b, u1) ->
       run (S f) (repeat Next (length rest) ++ [Next]) (close a)
       = Some (map Yield (map (newChaincodeEvent bn) rest) ++ [Done],
               {| closed := true; gen := Completed;
                  responses := up_return u1;
                  calls := calls a ++ [CallClose; CallNext; CallReturn] |}).
Proof.
  intros a bn rest f Hg.
  assert (Hfirst : forall g,
    run g (repeat Next (length rest)) (close a)
    = Some (map Yield (map (newChaincodeEvent bn) rest),
            {| closed := true; gen := Suspended bn [];
               responses := up_close (responses a);
               calls := calls a ++ [CallClose] |})).
  { intro g. unfold close. rewrite Hg. rewrite <- (app_nil_r rest) at 2.
    apply run_in_flight. }
  split; [apply Hfirst|].
  intros b u1 Hn. eapply run_app; [apply Hfirst|].
  cbn [run next gen pull responses closed calls]. rewrite Hn.
  rewrite <- !app_assoc. reflexivity.
Qed.

(** C3 (as the code has it): after [close()] inside a batch, with no
    [close()] before it, any number [k] of further requests emits the first
    [k] records still pending in the batch in flight and nothing else, so no
    record of a later batch is ever emitted; the upstream's [close()] has
    then been called exactly once. *)
Theorem close_mid_batch_ends_with_the_batch : forall a bn rest f k,
  gen a = Suspended bn rest ->
  close_count (calls a) = 0%nat ->
  exists rs a',
    run (S f) (repeat Next k) (close a) = Some (rs, a')
    /\ yields rs = firstn k (map (newChaincodeEvent bn) rest)
    /\ close_count (calls a') = 1%nat.
Proof.
  intros a bn rest f k Hg Hcc.
  assert (Hc1 : close_count (calls a ++ [CallClose]) = 1%nat)
    by (rewrite close_count_snoc, Hcc; reflexivity).
  unfold close. rewrite Hg.
  destruct (Nat.le_gt_cases k (length rest)) as [Hk|Hk].
  - exists (map Yield (map (newChaincodeEvent bn) (firstn k rest))).
    eexists. split; [|split].
    + pose proof (run_in_flight (S f) (firstn k rest) (skipn k rest) bn true
                    (up_close (responses a)) (calls a ++ [CallClose])) as Hr.
      rewrite firstn_skipn, (firstn_length_le rest Hk) in Hr. exact Hr.
    + rewrite yields_map_Yield, firstn_map. reflexivity.
    + exact Hc1.
  - destruct (run_closed_in_flight f (k - length rest - 1) bn rest
                (up_close (responses a)) (calls a ++ [CallClose]))
      as (a' & Hr & Hca).
    replace (length rest + S (k - length rest - 1))%nat with k in Hr by lia.
    eexists. exists a'. split; [exact Hr|]. split; [|congruence].
    rewrite yields_app, yields_map_Yield, yields_settled, app_nil_r.
    rewrite firstn_all2; [reflexivity|]. rewrite length_map. lia.
Qed.

(** C5 (as the code has it): after [close()] before any request, the first
    request pulls the closed upstream once: it reports the end of the stream
    when the upstream answers with a batch or with its end, and passes the
    error on when the upstream raises one; every later request reports the
    end of the stream; no event is emitted, and the upstream's [close()] has
    been called exactly once. *)
Theorem close_before_first_request : forall u f k,
  exists a',
    run (S f) (Close :: repeat Next (S k)) (newChaincodeEvents u)
    = Some (match fst (up_next (up_close u)) with
            | Raise e => Throw e
            | _ => Done
            end :: repeat Done k, a')
    /\ close_count (calls a') = 1%nat.
Proof.
  intros u f k. cbn [run].
  destruct (run_closed_awaiting f k (close (newChaincodeEvents u))
              eq_refl eq_refl) as (a' & Hr & Hcc).
  exists a'. split; [exact Hr|]. rewrite Hcc. reflexivity.
Qed.

(** C7 (as the code has it): on a closed adapter, requests first deliver the
    records still pending in the batch in flight, if any; the request after
    them reports the end of the stream, or passes on the error when the
    upstream raises one on that pull; every later request reports the end of
    the stream. *)
Theorem requests_after_close : forall a f m,
  closed a = true ->
  exists a',
    run (S f) (repeat Next (length (pending (gen a)) + S m)) a
    = Some (map Yield (pending (gen a))
              ++ match gen a, fst (up_next (responses a)) with
                 | Completed, _ => Done
                 | _, Raise e => Throw e
                 | _, _ => Done
                 end :: repeat Done m, a').
Proof.
  intros [c g u cs] f m Hc. cbn in Hc. subst c. cbn [gen responses].
  destruct g as [|bn rest|].
  - destruct (run_closed_awaiting f m
                {| closed := true; gen := NotStarted; responses := u;
                   calls := cs |} eq_refl eq_refl) as (a' & Hr & _).
    exists a'. cbn [responses] in Hr.
    cbn [pending length Nat.add map app]. rewrite Hr.
    destruct (fst (up_next u)); reflexivity.
  - destruct (run_closed_in_flight f m bn rest u cs) as (a' & Hr & _).
    exists a'. cbn [pending]. rewrite length_map, Hr.
    destruct (fst (up_next u)); reflexivity.
  - eexists. cbn [pending length Nat.add map app].
    apply (run_completed (S f) (S m)). reflexivity.
Qed.


(** C4: decoding never fails on an absent field.  A record is decoded with the
    empty string for an absent chaincode id, event name or transaction id and
    the empty byte sequence for an absent payload, at the head of a batch and
    at every later position.  When the upstream delivers [response] to an open
    adapter, its records are tagged with block number [0] if the block number
    is absent, and a batch with an absent record list is passed over like one
    with an empty list. *)
Theorem absent_fields_take_defaults : forall a response u1 f,
  closed a = false ->
  awaiting (gen a) = true ->
  up_next (responses a) = (Item response, u1) ->
  let decoded block event :=
    {| blockNumber := block;
       transactionId :=
         match getTxId event with
         | Some s => s
         | None => EmptyString
         end;
       chaincodeId :=
         match getChaincodeId event with
         | Some s => s
         | None => EmptyString
         end;
       eventName :=
         match getEventName event with
         | Some s => s
         | None => EmptyString
         end;
       payload :=
         match getPayload_asU8 event with
         | Some bytes => bytes
         | None => []
         end |} in
  let block :=
    match getBlockNumber response with
    | Some n => Z.of_N n
    | None => 0
    end in
  let resumed rest :=
    {| closed := false; gen := Suspended block rest; responses := u1;
       calls := calls a ++ [CallNext] |} in
  next (S f) a
  = match getEventsList response with
    | Some (event :: rest) => Some (Yield (decoded block event), resumed rest)
    | Some [] => pull f (resumed [])
    | None => pull f (resumed [])
    end
  /\ forall g c bn event rest u cs,
       next g {| closed := c; gen := Suspended bn (event :: rest);
                 responses := u; calls := cs |}
       = Some (Yield (decoded bn event),
               {| closed := c; gen := Suspended bn rest; responses := u;
                  calls := cs |}).
Proof.
  intros a response u1 f Hc Haw Hn decoded block resumed. split.
  - rewrite (next_awaiting _ _ Haw). cbn [pull]. rewrite Hn, Hc.
    subst decoded block resumed.
    destruct response as [[n|] [[|event rest]|]]; reflexivity.
  - reflexivity.
Qed.

End AdapterProperties.

(** ** The properties on the scripted upstreams *)

Lemma output_is_concatenation_witness :
  exists a',
    consume 3 4 (newChaincodeEvents buffered_two)
    = Some ([expected1; expected2; expected3], Done, a')
    /\ map blockNumber [expected1; expected2; expected3] = [5; 6; 6]
    /\ length [expected1; expected2; expected3] = 3%nat.
Proof.
  refine (output_is_concatenation buffered_two [batch5; batch6] 3 4
            eq_refl _ _); cbn; lia.
Defined.

Lemma buffered_two_increasing : forall bs,
  delivers_first buffered_two bs ->
  strictly_increasing
    (map (fun b => match getBlockNumber b with
                   | Some m => Z.of_N m
                   | None => 0
                   end) bs) = true.
Proof.
  unfold delivers_first.
  intros [|b1 [|b2 [|b3 bs]]] Hd; cbn [length answers map] in Hd;
    try reflexivity; inversion Hd; subst; try reflexivity; discriminate.
Qed.

Lemma emission_order_witness :
  (exists bs k1 k2 b1 b2,
      delivers_first buffered_two bs
      /\ nth_error bs k1 = Some b1 /\ nth_error bs k2 = Some b2
      /\ blockNumber expected1 = batch_block b1
      /\ blockNumber expected3 = batch_block b2
      /\ (k1 < k2)%nat /\ blockNumber expected1 < blockNumber expected3)
  /\ (exists bs k b p q r2 r3,
         delivers_first buffered_two bs /\ nth_error bs k = Some b
         /\ nth_error (batch_records b) p = Some r2
         /\ nth_error (batch_records b) q = Some r3
         /\ blockNumber expected2 = batch_block b
         /\ blockNumber expected3 = batch_block b
         /\ (p < q)%nat).
Proof.
  split.
  - destruct (emission_order buffered_two 1 [Next; Next; Close; Next]
                [Yield expected1; Yield expected2; Yield expected3]
                {| closed := true; gen := Suspended 6 [];
                   responses := {| queue := []; on_close := None |};
                   calls := [CallNext; CallNext; CallClose] |}
                0 2 expected1 expected3
                buffered_two_increasing eq_refl
                (Nat.lt_0_succ 1) eq_refl eq_refl)
      as (bs & k1 & k2 & b1 & b2 & p & q & r1 & r2 & Hd & Hk1 & Hk2 & _ & _
          & _ & _ & _ & _ & Hb1 & Hb2 & [[Hlt Hbn]|[_ [Hbn _]]]).
    + exists bs, k1, k2, b1, b2. rewrite !batch_block_spelled.
      repeat split; assumption.
    + discriminate Hbn.
  - destruct (emission_order buffered_two 1 [Next; Next; Close; Next]
                [Yield expected1; Yield expected2; Yield expected3]
                {| closed := true; gen := Suspended 6 [];
                   responses := {| queue := []; on_close := None |};
                   calls := [CallNext; CallNext; CallClose] |}
                1 2 expected2 expected3
                buffered_two_increasing eq_refl
                (Nat.lt_succ_diag_r 1) eq_refl eq_refl)
      as (bs & k1 & k2 & b1 & b2 & p & q & r1 & r2 & Hd & Hk1 & Hk2 & Hr1
          & Hr2 & _ & _ & _ & _ & Hb1 & Hb2 & [[_ Hbn]|[Hk [_ Hpq]]]).
    + exfalso. revert Hbn. cbn. apply Z.lt_irrefl.
    + subst k2. rewrite Hk1 in Hk2. injection Hk2 as Hb. subst b2.
      exists bs, k1, b1, p, q, r1, r2. rewrite !batch_block_spelled.
      repeat split; assumption.
Defined.

Lemma natural_end_leaves_upstream_open_witness :
  (exists a',
      consume 3 4 (newChaincodeEvents buffered_two)
      = Some ([event1; event2; event3], Done, a')
      /\ gen a' = Completed
      /\ calls a' = [CallNext; CallNext; CallNext]
      /\ close_count (calls a') = 0%nat)
  /\ (forall g ops rs a'',
         run g ops (newChaincodeEvents buffered_two) = Some (rs, a'') ->
         close_count (calls a'') = closes ops).
Proof.
  apply (natural_end_leaves_upstream_open buffered_two [batch5; batch6] 3 4);
    [reflexivity|cbn; lia|cbn; lia].
Defined.

Lemma upstream_error_passes_through_witness :
  exists a',
    consume 2 2 (newChaincodeEvents failing_after_one)
    = Some ([event1], Throw "unavailable"%string, a')
    /\ gen a' = Completed
    /\ calls a' = [CallNext; CallNext]
    /\ forall g, next g a' = Some (Done, a').
Proof.
  apply (upstream_error_passes_through (newChaincodeEvents failing_after_one)
           [batch5] "unavailable"%string 2 2);
    [reflexivity|left; reflexivity|reflexivity|cbn; lia|cbn; lia].
Defined.

Lemma guard_only_between_batches_witness :
  run 1 [Next] (close mid_batch6_more)
  = Some ([Yield event3],
          {| closed := true; gen := Suspended 6 [];
             responses := {| queue := [Item batch7]; on_close := None |};
             calls := [CallNext; CallNext; CallClose] |})
  /\ run 2 [Next; Next] (close mid_batch6_more)
     = Some ([Yield event3; Done],
             {| closed := true; gen := Completed;
                responses := {| queue := []; on_close := None |};
                calls := [CallNext; CallNext; CallClose; CallNext;
                          CallReturn] |}).
Proof.
  destruct (guard_only_between_batches mid_batch6_more 6 [record3] 1 eq_refl)
    as [Hrest Hguard].
  split; [exact Hrest|].
  exact (Hguard batch7 {| queue := []; on_close := None |} eq_refl).
Defined.

Lemma close_mid_batch_ends_with_the_batch_witness :
  exists rs a',
    run 1 [Next; Next; Next] (close mid_batch6) = Some (rs, a')
    /\ yields rs = [event3]
    /\ close_count (calls a') = 1%nat.
Proof.
  apply (close_mid_batch_ends_with_the_batch mid_batch6 6 [record3] 0 3);
    reflexivity.
Defined.

Lemma requests_after_close_witness :
  exists a',
    run 1 [Next; Next; Next] (close mid_batch6_cancelling)
    = Some ([Yield event3; Throw "cancelled"%string; Done], a').
Proof.
  exact (requests_after_close (close mid_batch6_cancelling) 0 1 eq_refl).
Defined.


Lemma absent_fields_take_defaults_witness :
  next 1 (newChaincodeEvents bare_upstream)
  = Some (Yield {| blockNumber := 0; transactionId := EmptyString;
                   chaincodeId := EmptyString; eventName := EmptyString;
                   payload := [] |},
          {| closed := false; gen := Suspended 0 [];
             responses := {| queue := []; on_close := None |};
             calls := [CallNext] |}).
Proof.
  exact (proj1 (absent_fields_take_defaults (newChaincodeEvents bare_upstream)
                  bare_batch {| queue := []; on_close := None |} 0%nat
                  eq_refl eq_refl eq_refl)).
Defined.

(** ** Where the code departs from the specification's wording *)

(** After [close()] inside the second batch, the next request still yields the
    batch's remaining record. *)
Lemma close_mid_batch_still_emits :
  run 1 [Next; Next] (newChaincodeEvents buffered_two)
  = Some ([Yield event1; Yield event2], mid_batch6)
  /\ next 1 (close mid_batch6)
     = Some (Yield event3,
             {| closed := true; gen := Suspended 6 [];
                responses := {| queue := []; on_close := None |};
                calls := [CallNext; CallNext; CallClose] |}).
Proof. split; reflexivity. Qed.

(** After [close()] before any request, over an upstream that reports the
    cancellation as an error, the first request raises that error. *)
Lemma close_first_then_upstream_error :
  run 1 [Close; Next; Next] (newChaincodeEvents cancelling_two)
  = Some ([Throw "cancelled"%string; Done],
          {| closed := true; gen := Completed;
             responses := {| queue := [];
                             on_close := Some [Raise "cancelled"%string] |};
             calls := [CallClose; CallNext] |}).
Proof. reflexivity. Qed.

(** Requests after [close()] inside a batch: first an event, then the
    upstream's error, and only then the end of the stream. *)
Lemma requests_after_close_not_all_done :
  run 1 [Next; Next; Close; Next; Next; Next]
    (newChaincodeEvents cancelling_two)
  = Some ([Yield event1; Yield event2; Yield event3;
           Throw "cancelled"%string; Done],
          {| closed := true; gen := Completed;
             responses := {| queue := [];
                             on_close := Some [Raise "cancelled"%string] |};
             calls := [CallNext; CallNext; CallClose; CallNext] |}).
Proof. reflexivity. Qed.

(** ** Further properties of the adapter *)

Section AdapterFurther.

Context {U : Type} `{CloseableAsyncIterable U}.

Implicit Types (a : adapter U) (u : U) (bs : list ChaincodeEventsResponse).

Lemma next_count_snoc : forall cs c,
  next_count (cs ++ [c]) = (next_count cs + if is_next c then 1 else 0)%nat.
Proof.
  unfold next_count. intros cs c. rewrite filter_app, length_app. cbn.
  destruct (is_next c); reflexivity.
Qed.

Lemma return_count_snoc : forall cs c,
  return_count (cs ++ [c]) = (return_count cs + if is_return c then 1 else 0)%nat.
Proof.
  unfold return_count. intros cs c. rewrite filter_app, length_app. cbn.
  destruct (is_return c); reflexivity.
Qed.

(** *** A finished generator *)

Lemma run_finished : forall f ops a,
  gen a = Completed ->
  exists rs a',
    run f ops a = Some (rs, a')
    /\ Forall (fun r => r = Done) rs
    /\ gen a' = Completed
    /\ next_count (calls a') = next_count (calls a)
    /\ return_count (calls a') = return_count (calls a)
    /\ close_count (calls a') = (close_count (calls a) + closes ops)%nat.
Proof.
  intros f. induction ops as [|[|] ops IH]; intros a Hg.
  - exists [], a. cbn [run]. unfold closes. cbn. repeat split; auto; lia.
  - destruct (IH a Hg) as (rs & a' & Hr & Hall & Hg' & Hn & Hret & Hcl).
    exists (Done :: rs), a'. cbn [run]. unfold next. rewrite Hg, Hr.
    repeat split; auto; unfold closes in *; cbn in *; lia.
  - destruct (IH (close a) Hg) as (rs & a' & Hr & Hall & Hg' & Hn & Hret & Hcl).
    exists rs, a'. cbn [run]. rewrite Hr.
    cbn [close calls] in Hn, Hret, Hcl.
    rewrite next_count_snoc in Hn. rewrite return_count_snoc in Hret.
    rewrite close_count_snoc in Hcl. cbn in Hn, Hret, Hcl.
    repeat split; auto; unfold closes in *; cbn in *; lia.
Qed.

(** *** A closed adapter *)

Lemma pull_closed_counts : forall f a,
  closed a = true ->
  exists r a',
    pull (S f) a = Some (r, a')
    /\ gen a' = Completed
    /\ next_count (calls a') = S (next_count (calls a))
    /\ (return_count (calls a') <= S (return_count (calls a)))%nat.
Proof.
  intros f a Hc. cbn [pull]. destruct (up_next (responses a)) as [o u].
  rewrite Hc. destruct o; eexists; eexists; (split; [reflexivity|]);
    cbn [gen calls]; repeat rewrite next_count_snoc;
    repeat rewrite return_count_snoc; cbn [is_next is_return];
    repeat split; lia.
Qed.

Lemma run_closed_total : forall f ops a,
  closed a = true ->
  exists rs a',
    run (S f) ops a = Some (rs, a')
    /\ (next_count (calls a') <= S (next_count (calls a)))%nat
    /\ (return_count (calls a') <= S (return_count (calls a)))%nat.
Proof.
  intros f. induction ops as [|[|] ops IH]; intros a Hc.
  - exists [], a. cbn [run]. auto.
  - cbn [run]. unfold next.
    destruct a as [c g u cs]. cbn in Hc. subst c. cbn [gen].
    destruct g as [|bn [|ev rest]|].
    1,2: match goal with |- context [pull _ ?x] =>
           destruct (pull_closed_counts f x eq_refl)
             as (r & a1 & Hp & Hg & Hn & Hret);
           destruct (run_finished (S f) ops a1 Hg)
             as (rs & a' & Hr & _ & _ & Hn' & Hret' & _);
           exists (r :: rs), a'; rewrite Hp, Hr; cbn [calls] in *;
           repeat split; lia
         end.
    + match goal with |- context [run _ ops ?x] =>
        destruct (IH x eq_refl) as (rs & a' & Hr & Hn & Hret)
      end.
      eexists. exists a'. rewrite Hr. cbn [calls] in *. auto.
    + match goal with |- context [run _ ops ?x] =>
        destruct (run_finished (S f) ops x eq_refl)
          as (rs & a' & Hr & _ & _ & Hn & Hret & _)
      end.
      eexists. exists a'. rewrite Hr. cbn [calls] in *.
      repeat split; lia.
  - cbn [run]. destruct (IH (close a) eq_refl) as (rs & a' & Hr & Hn & Hret).
    exists rs, a'. cbn [close calls] in Hn, Hret.
    rewrite next_count_snoc in Hn. rewrite return_count_snoc in Hret.
    cbn in Hn, Hret. repeat split; auto; lia.
Qed.

(** *** Calls of the upstream's [return()] *)

Lemma pull_return : forall f a r a',
  return_count (calls a) = 0%nat ->
  pull f a = Some (r, a') ->
  return_count (calls a') = 0%nat
  \/ (return_count (calls a') = 1%nat /\ closed a' = true
      /\ gen a' = Completed).
Proof.
  induction f as [|f IH]; intros a r a' H0 Hp; cbn [pull] in Hp; [discriminate|].
  destruct (up_next (responses a)) as [o u]. destruct o.
  - destruct (closed a) eqn:Hc.
    + inversion Hp; subst. right. cbn [calls closed gen].
      rewrite !return_count_snoc, H0. cbn. auto.
    + destruct (or_else (getEventsList response) []).
      * apply IH in Hp; [assumption|]. cbn [calls].
        rewrite return_count_snoc, H0. reflexivity.
      * inversion Hp; subst. left. cbn [calls].
        rewrite return_count_snoc, H0. reflexivity.
  - inversion Hp; subst. left. cbn [calls].
    rewrite return_count_snoc, H0. reflexivity.
  - inversion Hp; subst. left. cbn [calls].
    rewrite return_count_snoc, H0. reflexivity.
Qed.

Lemma next_return : forall f a r a',
  return_count (calls a) = 0%nat
  \/ (return_count (calls a) = 1%nat /\ closed a = true /\ gen a = Completed) ->
  next f a = Some (r, a') ->
  return_count (calls a') = 0%nat
  \/ (return_count (calls a') = 1%nat /\ closed a' = true
      /\ gen a' = Completed).
Proof.
  unfold next. intros f a r a' Hj Hn.
  destruct (gen a) as [|bn [|ev rest]|] eqn:Hg.
  - destruct Hj as [H0|(_ & _ & Hf)]; [|discriminate].
    eapply pull_return; eassumption.
  - destruct Hj as [H0|(_ & _ & Hf)]; [|discriminate].
    eapply pull_return; eassumption.
  - destruct Hj as [H0|(_ & _ & Hf)]; [|discriminate].
    inversion Hn; subst. left. exact H0.
  - inversion Hn; subst. rewrite Hg. exact Hj.
Qed.

Lemma run_return : forall f ops a rs a',
  return_count (calls a) = 0%nat
  \/ (return_count (calls a) = 1%nat /\ closed a = true /\ gen a = Completed) ->
  run f ops a = Some (rs, a') ->
  return_count (calls a') = 0%nat
  \/ (return_count (calls a') = 1%nat /\ closed a' = true
      /\ gen a' = Completed).
Proof.
  intros f. induction ops as [|[|] ops IH]; intros a rs a' Hj Hr;
    cbn [run] in Hr.
  - inversion Hr; subst. exact Hj.
  - destruct (next f a) as [[r a1]|] eqn:Hn; [|discriminate].
    destruct (run f ops a1) as [[rs1 a2]|] eqn:Hr1; [|discriminate].
    inversion Hr; subst. eapply IH; [|eassumption].
    eapply next_return; eassumption.
  - eapply IH; [|eassumption]. cbn [close calls closed gen].
    rewrite return_count_snoc. cbn.
    destruct Hj as [H0|(H1 & _ & Hg)]; [left; lia|right; repeat split; auto; lia].
Qed.

Lemma pull_return_exact : forall f a r a',
  pull f a = Some (r, a') ->
  return_count (calls a')
  = (return_count (calls a)
     + if closed a && is_item (fst (up_next (responses a))) then 1 else 0)%nat.
Proof.
  induction f as [|f IH]; intros a r a' Hp; cbn [pull] in Hp; [discriminate|].
  destruct (up_next (responses a)) as [o u]. cbn [fst]. destruct o.
  - destruct (closed a) eqn:Hc.
    + inversion Hp; subst. cbn [calls].
      rewrite !return_count_snoc. cbn. lia.
    + destruct (or_else (getEventsList response) []).
      * apply IH in Hp. cbn [calls closed] in Hp.
        rewrite return_count_snoc in Hp. cbn in Hp. cbn. lia.
      * inversion Hp; subst. cbn [calls].
        rewrite return_count_snoc. cbn. lia.
  - inversion Hp; subst. cbn [calls]. rewrite return_count_snoc.
    rewrite andb_false_r. cbn. lia.
  - inversion Hp; subst. cbn [calls]. rewrite return_count_snoc.
    rewrite andb_false_r. cbn. lia.
Qed.

Lemma next_return_exact : forall f a r a',
  next f a = Some (r, a') ->
  return_count (calls a')
  = (return_count (calls a)
     + if closed a && awaiting (gen a)
          && is_item (fst (up_next (responses a)))
       then 1 else 0)%nat.
Proof.
  unfold next. intros f a r a' Hn.
  destruct (gen a) as [|bn [|ev rest]|]; cbn [awaiting].
  - rewrite andb_true_r. eapply pull_return_exact; eassumption.
  - rewrite andb_true_r. eapply pull_return_exact; eassumption.
  - inversion Hn; subst. cbn [calls]. rewrite andb_false_r. cbn. lia.
  - inversion Hn; subst. rewrite andb_false_r. cbn. lia.
Qed.

(** *** An adapter that is never closed *)

Lemma pull_open_frame : forall u0 f a k r a',
  closed a = false ->
  calls a = repeat CallNext k ->
  responses a = after k u0 ->
  pull f a = Some (r, a') ->
  closed a' = false
  /\ exists k', calls a' = repeat CallNext k' /\ responses a' = after k' u0.
Proof.
  intros u0. induction f as [|f IH]; intros a k r a' Hc Hcs Hu Hp;
    cbn [pull] in Hp; [discriminate|].
  assert (Hcs' : calls a ++ [CallNext] = repeat CallNext (S k))
    by (rewrite Hcs; symmetry; apply repeat_cons).
  assert (Hu' : snd (up_next (responses a)) = after (S k) u0)
    by (rewrite after_S, Hu; reflexivity).
  destruct (up_next (responses a)) as [o u]. cbn [snd] in Hu'.
  rewrite Hc in Hp. destruct o.
  - destruct (or_else (getEventsList response) []).
    + eapply IH in Hp; eauto.
    + inversion Hp; subst. cbn. eauto.
  - inversion Hp; subst. cbn. eauto.
  - inversion Hp; subst. cbn. eauto.
Qed.

Lemma run_open_frame : forall u0 f n a k rs a',
  closed a = false ->
  calls a = repeat CallNext k ->
  responses a = after k u0 ->
  run f (repeat Next n) a = Some (rs, a') ->
  closed a' = false
  /\ exists k', calls a' = repeat CallNext k' /\ responses a' = after k' u0.
Proof.
  intros u0 f. induction n as [|n IH]; intros a k rs a' Hc Hcs Hu Hr;
    cbn [repeat run] in Hr.
  - inversion Hr; subst. eauto.
  - destruct (next f a) as [[r a1]|] eqn:Hn; [|discriminate].
    destruct (run f (repeat Next n) a1) as [[rs1 a2]|] eqn:Hr1; [|discriminate].
    inversion Hr; subst.
    assert (H1 : closed a1 = false
                 /\ exists k', calls a1 = repeat CallNext k'
                               /\ responses a1 = after k' u0).
    { unfold next in Hn. destruct (gen a) as [|bn [|ev rest]|].
      - eapply pull_open_frame; eassumption.
      - eapply pull_open_frame; eassumption.
      - inversion Hn; subst. cbn. eauto.
      - inversion Hn; subst. eauto. }
    destruct H1 as (Hc1 & k1 & Hcs1 & Hu1). eapply IH; eassumption.
Qed.

(** *** What a finite upstream bounds *)

Lemma delivers_first_cons : forall u b bs,
  delivers_first u (b :: bs) ->
  fst (up_next u) = Item b /\ delivers_first (snd (up_next u)) bs.
Proof.
  unfold delivers_first. intros u b bs Hd. cbn [length answers map] in Hd.
  inversion Hd. split; reflexivity.
Qed.

Lemma delivers_first_prefix : forall bs' u bs fin,
  delivers u bs fin -> is_item fin = false ->
  delivers_first u bs' ->
  exists later, bs = bs' ++ later.
Proof.
  induction bs' as [|b' bs' IH]; intros u bs fin Hd Hfin Hf;
    [exists bs; reflexivity|].
  apply delivers_first_cons in Hf. destruct Hf as [Hb' Hf].
  destruct bs as [|b bs].
  - apply delivers_nil in Hd. rewrite Hb' in Hd. subst fin. discriminate.
  - apply delivers_cons in Hd. destruct Hd as [Hb Hd].
    rewrite Hb' in Hb. inversion Hb; subst b'.
    destruct (IH _ _ _ Hd Hfin Hf) as [later ->]. exists later. reflexivity.
Qed.

Lemma flat_map_has_records : forall bs,
  flat_map batch_events (filter has_records bs) = flat_map batch_events bs.
Proof.
  induction bs as [|b bs IH]; [reflexivity|].
  cbn [filter flat_map]. unfold has_records at 1.
  destruct (batch_records b) eqn:Hb.
  - rewrite (batch_events_nil _ Hb). exact IH.
  - cbn [flat_map]. rewrite IH. reflexivity.
Qed.

(** *** One upstream call per request *)



(** *** The properties *)

(** X1: whatever the consumer requests, and wherever it closes, the events
    emitted over an upstream that delivers the batches [bs] and then ends or
    fails are an initial part of the events of [bs] in order: none is
    repeated, reordered or made up, and [close()] only cuts the output
    short. *)
Theorem emitted_is_prefix : forall u bs fin f ops rs a',
  delivers u bs fin ->
  is_item fin = false ->
  run f ops (newChaincodeEvents u) = Some (rs, a') ->
  exists later, yields rs ++ later = flat_map batch_events bs.
Proof.
  intros u bs fin f ops rs a' Hd Hfin Hr.
  destruct (run_emitted u f ops _ [] rs a' (emitted_from_new u) Hr)
    as (bs' & Hd' & Hout & _).
  cbn [app] in Hout.
  destruct (delivers_first_prefix bs' u bs fin Hd Hfin Hd') as [later ->].
  exists (pending (gen a') ++ flat_map batch_events later).
  rewrite app_assoc, Hout, flat_map_app. reflexivity.
Qed.

(** X2: under any sequence of [next()] and [close()] requests and over any
    upstream, every event emitted is the decoding of a record of a batch the
    upstream delivered: it has the record's fields, empty where absent, and
    the batch's block number, [0] where absent. *)
Theorem emitted_events_come_from_batches : forall u f ops rs a' e,
  run f ops (newChaincodeEvents u) = Some (rs, a') ->
  In e (yields rs) ->
  let block b :=
    match getBlockNumber b with
    | Some m => Z.of_N m
    | None => 0
    end in
  let records b :=
    match getEventsList b with
    | Some l => l
    | None => []
    end in
  let decoded bn event :=
    {| blockNumber := bn;
       transactionId :=
         match getTxId event with
         | Some s => s
         | None => EmptyString
         end;
       chaincodeId :=
         match getChaincodeId event with
         | Some s => s
         | None => EmptyString
         end;
       eventName :=
         match getEventName event with
         | Some s => s
         | None => EmptyString
         end;
       payload :=
         match getPayload_asU8 event with
         | Some bytes => bytes
         | None => []
         end |} in
  exists bs b r,
    delivers_first u bs /\ In b bs /\ In r (records b)
    /\ e = decoded (block b) r
    /\ blockNumber e = block b.
Proof.
  intros u f ops rs a' e Hr He block records decoded.
  destruct (run_emitted u f ops _ [] rs a' (emitted_from_new u) Hr)
    as (bs & Hd & Hout & _).
  cbn [app] in Hout.
  assert (Hin : In e (flat_map batch_events bs))
    by (rewrite <- Hout; apply in_or_app; left; exact He).
  apply in_flat_map in Hin. destruct Hin as (b & Hb & Heb).
  unfold batch_events in Heb. apply in_map_iff in Heb.
  destruct Heb as (r & <- & Hrb).
  exists bs, b, r. split; [exact Hd|]. split; [exact Hb|].
  split; [exact Hrb|].
  rewrite batch_block_spelled. split; reflexivity.
Qed.

(** X3: once the generator has finished, because the upstream ended or
    raised or because a batch arrived after [close()], every request
    reports the end of the stream, whatever the fuel, and the adapter calls
    neither [next()] nor [return()] on the upstream again; [close()] requests
    are still passed on to the upstream, one call each. *)
Theorem finished_stays_finished : forall f ops a,
  gen a = Completed ->
  exists rs a',
    run f ops a = Some (rs, a')
    /\ Forall (fun r => r = Done) rs
    /\ gen a' = Completed
    /\ next_count (calls a') = next_count (calls a)
    /\ return_count (calls a') = return_count (calls a)
    /\ close_count (calls a') = (close_count (calls a) + closes ops)%nat.
Proof. intros f ops a Hg. apply run_finished. exact Hg. Qed.

(** X4: a closed adapter answers every sequence of requests, with one unit
    of fuel per request, and from then on calls the upstream's [next()] at
    most once and its [return()] at most once. *)
Theorem closed_adapter_pulls_at_most_once : forall f ops a,
  closed a = true ->
  exists rs a',
    run (S f) ops a = Some (rs, a')
    /\ (next_count (calls a') <= S (next_count (calls a)))%nat
    /\ (return_count (calls a') <= S (return_count (calls a)))%nat.
Proof. intros f ops a Hc. apply run_closed_total. exact Hc. Qed.

(** X5: as long as the consumer only requests elements, the adapter stays
    open and touches the upstream through [next()] alone: the calls made are
    [k] calls of [next()] for some [k], and the upstream is in the state [k]
    such calls leave it in. *)
Theorem open_adapter_only_calls_next : forall u f n rs a',
  run f (repeat Next n) (newChaincodeEvents u) = Some (rs, a') ->
  closed a' = false
  /\ exists k, calls a' = repeat CallNext k /\ responses a' = after k u.
Proof.
  intros u f n rs a' Hr.
  apply (run_open_frame u f n (newChaincodeEvents u) 0 rs a'); auto.
Qed.


(** X7: as long as the consumer drives the adapter through [next()] and
    [close()] requests only, and sends neither [return()] nor [throw()] to
    the generator, the adapter calls the upstream iterator's [return()] in
    exactly one situation: a request on a closed adapter awaits the upstream
    and the upstream answers with a batch.  A request adds one [return()]
    call in that situation and none in any other (open adapter, record still
    pending, finished generator, upstream end, upstream error); [close()]
    adds none.  Over a whole run there is at most one such call, and the
    adapter is then closed and finished. *)
Theorem return_only_after_close : forall u f ops rs a',
  run f ops (newChaincodeEvents u) = Some (rs, a') ->
  (return_count (calls a') = 0%nat
   \/ (return_count (calls a') = 1%nat /\ closed a' = true
       /\ gen a' = Completed))
  /\ (forall g a r a1,
         next g a = Some (r, a1) ->
         return_count (calls a1)
         = (return_count (calls a)
            + if closed a && awaiting (gen a)
                 && is_item (fst (up_next (responses a)))
              then 1 else 0)%nat)
  /\ (forall a, return_count (calls (close a)) = return_count (calls a)).
Proof.
  intros u f ops rs a' Hr. split; [|split].
  - apply (run_return f ops (newChaincodeEvents u) rs a'); [|exact Hr].
    left. reflexivity.
  - intros g a r a1 Hn. eapply next_return_exact. exact Hn.
  - intro a. cbn [close calls]. rewrite return_count_snoc. cbn. lia.
Qed.

(** X8: batches without records, whether the list is empty or absent, leave
    no trace in the output: two upstreams that end and whose batches with
    records are the same give the same events. *)
Theorem recordless_batches_are_skipped : forall u1 u2 bs1 bs2 f n,
  delivers u1 bs1 EndOfStream ->
  delivers u2 bs2 EndOfStream ->
  filter has_records bs1 = filter has_records bs2 ->
  (length bs1 < f)%nat ->
  (length bs2 < f)%nat ->
  (length (flat_map batch_events bs1) < n)%nat ->
  exists es a1 a2,
    consume f n (newChaincodeEvents u1) = Some (es, Done, a1)
    /\ consume f n (newChaincodeEvents u2) = Some (es, Done, a2).
Proof.
  intros u1 u2 bs1 bs2 f n Hd1 Hd2 Hsame Hf1 Hf2 Hn.
  assert (Heq : flat_map batch_events bs1 = flat_map batch_events bs2).
  { rewrite <- (flat_map_has_records bs1), <- (flat_map_has_records bs2), Hsame.
    reflexivity. }
  exists (flat_map batch_events bs1). eexists. eexists. split.
  - apply (consume_delivers bs1 u1 EndOfStream (newChaincodeEvents u1) f n);
      auto.
  - rewrite Heq.
    apply (consume_delivers bs2 u2 EndOfStream (newChaincodeEvents u2) f n);
      auto.
    rewrite <- Heq. exact Hn.
Qed.

End AdapterFurther.

(** X9: on records with every field present, decoding loses nothing: equal
    events come from equal block numbers and equal records. *)
Theorem complete_records_decode_apart : forall bn1 bn2 r1 r2,
  is_complete r1 = true ->
  is_complete r2 = true ->
  newChaincodeEvent bn1 r1 = newChaincodeEvent bn2 r2 ->
  bn1 = bn2 /\ r1 = r2.
Proof.
  intros bn1 bn2 [[c1|] [n1|] [t1|] [p1|]] [[c2|] [n2|] [t2|] [p2|]] H1 H2 He;
    try discriminate.
  inversion He. subst. split; reflexivity.
Qed.

(** *** The further properties on the scripted upstreams *)

Lemma emitted_is_prefix_witness :
  exists later, [event1] ++ later = [event1; event2; event3].
Proof.
  exact (emitted_is_prefix buffered_two [batch5; batch6] EndOfStream 1
           [Next; Close; Next; Next] [Yield event1; Done; Done]
           {| closed := true; gen := Completed;
              responses := {| queue := []; on_close := None |};
              calls := [CallNext; CallClose; CallNext; CallReturn] |}
           eq_refl eq_refl eq_refl).
Defined.

Lemma emitted_events_come_from_batches_witness :
  exists bs b r,
    delivers_first buffered_two bs /\ In b bs
    /\ In r match getEventsList b with
            | Some l => l
            | None => []
            end
    /\ expected3
       = {| blockNumber :=
              match getBlockNumber b with
              | Some m => Z.of_N m
              | None => 0
              end;
            transactionId :=
              match getTxId r with
              | Some s => s
              | None => EmptyString
              end;
            chaincodeId :=
              match getChaincodeId r with
              | Some s => s
              | None => EmptyString
              end;
            eventName :=
              match getEventName r with
              | Some s => s
              | None => EmptyString
              end;
            payload :=
              match getPayload_asU8 r with
              | Some bytes => bytes
              | None => []
              end |}
    /\ blockNumber expected3
       = match getBlockNumber b with
         | Some m => Z.of_N m
         | None => 0
         end.
Proof.
  refine (emitted_events_come_from_batches buffered_two 1
            [Next; Next; Close; Next]
            [Yield expected1; Yield expected2; Yield expected3]
            {| closed := true; gen := Suspended 6 [];
               responses := {| queue := []; on_close := None |};
               calls := [CallNext; CallNext; CallClose] |} expected3
            eq_refl _).
  cbn. auto.
Defined.

Lemma finished_stays_finished_witness :
  exists rs a',
    run 0 [Next; Close; Next]
      {| closed := false; gen := Completed;
         responses := {| queue := [Item batch6]; on_close := None |};
         calls := [CallNext; CallNext] |}
    = Some (rs, a')
    /\ Forall (fun r => r = Done) rs
    /\ gen a' = Completed
    /\ next_count (calls a') = 2%nat
    /\ return_count (calls a') = 0%nat
    /\ close_count (calls a') = 1%nat.
Proof.
  exact (finished_stays_finished 0 [Next; Close; Next]
           {| closed := false; gen := Completed;
              responses := {| queue := [Item batch6]; on_close := None |};
              calls := [CallNext; CallNext] |} eq_refl).
Defined.

Lemma closed_adapter_pulls_at_most_once_witness :
  exists rs a',
    run 1 [Next; Next; Close; Next] (close mid_batch6_more) = Some (rs, a')
    /\ (next_count (calls a') <= 3)%nat
    /\ (return_count (calls a') <= 1)%nat.
Proof.
  exact (closed_adapter_pulls_at_most_once 0 [Next; Next; Close; Next]
           (close mid_batch6_more) eq_refl).
Defined.

Lemma open_adapter_only_calls_next_witness :
  closed mid_batch6_more = false
  /\ exists k,
       calls mid_batch6_more = repeat CallNext k
       /\ responses mid_batch6_more = after k buffered_three.
Proof.
  exact (open_adapter_only_calls_next buffered_three 1 2
           [Yield event1; Yield event2] mid_batch6_more eq_refl).
Defined.



Lemma return_only_after_close_witness :
  (return_count [CallNext; CallNext; CallClose; CallNext; CallReturn] = 0%nat
   \/ return_count [CallNext; CallNext; CallClose; CallNext; CallReturn]
      = 1%nat)
  /\ (forall a1,
         next 1 {| closed := true; gen := Suspended 6 [];
                   responses := {| queue := [Item batch7]; on_close := None |};
                   calls := [CallNext; CallNext; CallClose] |}
         = Some (Done, a1) ->
         return_count (calls a1) = 1%nat)
  /\ (forall a1,
         next 1 {| closed := true; gen := Suspended 6 [];
                   responses := {| queue := []; on_close := None |};
                   calls := [CallNext; CallNext; CallClose] |}
         = Some (Done, a1) ->
         return_count (calls a1) = 0%nat).
Proof.
  destruct (return_only_after_close (H := scripted_iterable) buffered_three 1
              [Next; Next; Close; Next; Next]
              [Yield event1; Yield event2; Yield event3; Done]
              {| closed := true; gen := Completed;
                 responses := {| queue := []; on_close := None |};
                 calls := [CallNext; CallNext; CallClose; CallNext;
                           CallReturn] |}
              eq_refl) as (Hrun & Hstep & _).
  split; [|split].
  - destruct Hrun as [H0|(H1 & _ & _)]; [left; exact H0|right; exact H1].
  - intros a1 Hn. exact (Hstep _ _ _ _ Hn).
  - intros a1 Hn. exact (Hstep _ _ _ _ Hn).
Defined.

Lemma recordless_batches_are_skipped_witness :
  exists es a1 a2,
    consume 5 4 (newChaincodeEvents sparse_two) = Some (es, Done, a1)
    /\ consume 5 4 (newChaincodeEvents buffered_two) = Some (es, Done, a2).
Proof.
  apply (recordless_batches_are_skipped sparse_two buffered_two
           [empty_list_batch; batch5; absent_list_batch; batch6]
           [batch5; batch6] 5 4);
    [reflexivity|reflexivity|reflexivity|cbn; lia|cbn; lia|cbn; lia].
Defined.

Lemma complete_records_decode_apart_witness :
  6 = 6 /\ record2 = record2.
Proof.
  exact (complete_records_decode_apart 6 6 record2 record2
           eq_refl eq_refl eq_refl).
Defined.
